(** * Page reconstruction of [pdf_extractor.py]

    A shallow embedding of the page-reconstruction pipeline: row grouping,
    gutter splitting, line building, column classification, reading-order
    sequencing, boilerplate filtering, paragraph merging, and the page and
    document drivers.

    Conventions of the embedding.
    - A page coordinate (a Python float) is the rational number it denotes.
      Comparisons, [abs], [min] and [max] are exact on such values, and so is
      the product of the page width by the gutter ratio 0.5.  A subtraction
      is rounded to the nearest binary64 value, ties to even ([fsub]);
      overflow, infinities and NaN, which page coordinates do not reach, are
      not modelled.
    - A Python [str] is the list of its code points.  The character database
      (whitespace, lowercase, decimal digits, word characters, [str.lower])
      is the interface [Unicode]; [basic_latin] is its ASCII block.
    - [sorted] is the stable sort of Python, which compares keys with [<].
    - A [for] loop that appends to lists is a left fold over its state.
    - The token source (the pdfplumber library) and the argument parser are
      not part of the repository: [page.crop] and the number parsers are
      parameters of the functions that call them. *)

From Stdlib Require Import String Ascii.
From Stdlib Require Import List Bool Arith ZArith NArith QArith Qabs.
From Stdlib Require Import Permutation Sorted Lia Lqa DecimalString.
Import ListNotations.

Set Implicit Arguments.
Local Open Scope list_scope.

(** ** Strings *)

Definition str := list N.

(** An ASCII literal as a Python string. *)
Fixpoint lit (s : string) : str :=
  match s with
  | EmptyString => []
  | String a s' => N_of_ascii a :: lit s'
  end.

(** The character database the interpreter consults. *)
Class Unicode := {
  isspace : N -> bool;            (* str.isspace, str.strip, regex \s *)
  islower : N -> bool;            (* str.islower on one character *)
  isdecimal : N -> bool;          (* regex \d *)
  isword : N -> bool;             (* regex \w *)
  lower : str -> str              (* str.lower *)
}.

Definition ascii_isspace (c : N) : bool :=
  ((9 <=? c) && (c <=? 13) || (28 <=? c) && (c <=? 32))%N.
Definition ascii_islower (c : N) : bool := ((97 <=? c) && (c <=? 122))%N.
Definition ascii_isupper (c : N) : bool := ((65 <=? c) && (c <=? 90))%N.
Definition ascii_isdecimal (c : N) : bool := ((48 <=? c) && (c <=? 57))%N.
Definition ascii_isword (c : N) : bool :=
  ascii_islower c || ascii_isupper c || ascii_isdecimal c || (c =? 95)%N.
Definition ascii_lower (s : str) : str :=
  map (fun c => if ascii_isupper c then (c + 32)%N else c) s.

(** The Basic Latin block: exact on code points below 128. *)
#[export] Instance basic_latin : Unicode := {|
  isspace := ascii_isspace;
  islower := ascii_islower;
  isdecimal := ascii_isdecimal;
  isword := ascii_isword;
  lower := ascii_lower
|}.

(** [sep.join(parts)] *)
Fixpoint join (sep : str) (parts : list str) : str :=
  match parts with
  | [] => []
  | [p] => p
  | p :: rest => p ++ sep ++ join sep rest
  end.

(** [s.startswith(p)] *)
Fixpoint startswith (s p : str) {struct p} : bool :=
  match p, s with
  | [], _ => true
  | a :: p', b :: s' => (a =? b)%N && startswith s' p'
  | _ :: _, [] => false
  end.

(** [s.endswith(p)] *)
Definition endswith (s p : str) : bool := startswith (rev s) (rev p).

(** [p in s] *)
Fixpoint contains (s p : str) : bool :=
  startswith s p ||
  match s with
  | [] => false
  | _ :: s' => contains s' p
  end.

Section Strings.
Context {U : Unicode}.

(** [s.lstrip()] *)
Fixpoint lstrip (s : str) : str :=
  match s with
  | c :: s' => if isspace c then lstrip s' else s
  | [] => []
  end.

(** [s.rstrip()] *)
Definition rstrip (s : str) : str := rev (lstrip (rev s)).

(** [s.strip()] *)
Definition strip (s : str) : str := rstrip (lstrip s).

(** [re.sub(r"\s+", " ", s)]: every maximal run of whitespace becomes one
    space. *)
Fixpoint collapse_space (s : str) : str :=
  match s with
  | [] => []
  | c :: s' =>
      if isspace c
      then match s' with
           | d :: _ => if isspace d then collapse_space s'
                       else 32%N :: collapse_space s'
           | [] => [32%N]
           end
      else c :: collapse_space s'
  end.

Definition norm_space (s : str) : str := strip (collapse_space s).

End Strings.

(** ** Python's [sorted], [min] and [max] *)

Section PySorted.
Variables (A K : Type) (key : A -> K) (lt : K -> K -> bool).

Fixpoint insert (x : A) (l : list A) : list A :=
  match l with
  | [] => [x]
  | z :: l' => if lt (key z) (key x) then z :: insert x l' else x :: l
  end.

(** [sorted(l, key=key)]: the stable sort; an element moves past exactly
    the later elements whose key is strictly smaller. *)
Definition sorted (l : list A) : list A := fold_right insert [] l.
End PySorted.

Definition Qltb (a b : Q) : bool := negb (Qle_bool b a).

(** ** Subtraction of floats

    [round64 q] is the binary64 value nearest to [q], ties to even: the
    significand has 53 bits and the exponent of its last bit is at least
    -1074. *)

Definition round_half_even (N D : Z) : Z :=
  let m := (N / D)%Z in
  let r := (N mod D)%Z in
  if (2 * r <? D)%Z then m
  else if (D <? 2 * r)%Z then (m + 1)%Z
  else if Z.even m then m else (m + 1)%Z.

(** [n / (d * 2^e)] as a fraction of integers. *)
Definition scaled (n d e : Z) : Z * Z :=
  ((n * 2 ^ Z.max (- e) 0)%Z, (d * 2 ^ Z.max e 0)%Z).

(** The exponent [e] of the last bit: [2^52 <= n / (d * 2^e) < 2^53], or
    -1074 for a subnormal value. *)
Definition binade (n d : Z) : Z :=
  let e1 := (Z.log2 n - Z.log2 d - 53)%Z in
  let '(N, D) := scaled n d e1 in
  let e2 := if (N <? 2 ^ 53 * D)%Z then e1 else (e1 + 1)%Z in
  Z.max e2 (-1074).

(** [m * 2^e] *)
Definition of_scaled (m e : Z) : Q :=
  if (0 <=? e)%Z then inject_Z (m * 2 ^ e)
  else Qmake m (Z.to_pos (2 ^ (- e))).

Definition round64 (q : Q) : Q :=
  let q := Qred q in
  match Qnum q with
  | Z0 => 0%Q
  | _ =>
      let n := Z.abs (Qnum q) in
      let d := Zpos (Qden q) in
      let e := binade n d in
      let '(N, D) := scaled n d e in
      let v := of_scaled (round_half_even N D) e in
      if (Qnum q <? 0)%Z then Qopp v else v
  end.

(** [a - b] on floats. *)
Definition fsub (a b : Q) : Q := round64 (a - b).

Arguments fsub : simpl never.

(** Tuples compare lexicographically. *)
Definition pair_ltb (a b : Q * Q) : bool :=
  Qltb (fst a) (fst b) || (Qeq_bool (fst a) (fst b) && Qltb (snd a) (snd b)).

(** [min(l)] and [max(l)]; both raise on an empty argument, which the
    callers below never pass (segments are never empty). *)
Definition py_min (l : list Q) : Q :=
  match l with
  | [] => 0%Q
  | v :: l' => fold_left (fun m x => if Qltb x m then x else m) l' v
  end.

Definition py_max (l : list Q) : Q :=
  match l with
  | [] => 0%Q
  | v :: l' => fold_left (fun m x => if Qltb m x then x else m) l' v
  end.

(** ** Words, segments and lines *)

(** A word of [extract_words]: the dictionary keys the code reads. *)
Record Token := mkToken {
  w_text : str;
  w_x0 : Q;
  w_x1 : Q;
  w_top : Q;
  w_bottom : Q
}.

(** The loop body of [split_by_gutter_gap]; the state is
    [(segments, current)].  [current] always holds a word, so [current[-1]]
    does not raise and the default of [last] is never used. *)
Definition gutter_step (min_gap : Q)
    (st : list (list Token) * list Token) (w : Token)
    : list (list Token) * list Token :=
  let '(segments, current) := st in
  let prev := last current w in
  let gap := fsub (w_x0 w) (w_x1 prev) in
  if Qle_bool min_gap gap
  then (segments ++ [current], [w])
  else (segments, current ++ [w]).

Definition split_by_gutter_gap (words_in_row : list Token) (min_gap : Q)
    : list (list Token) :=
  match words_in_row with
  | [] => []
  | w0 :: rest =>
      let '(segments, current) :=
        fold_left (gutter_step min_gap) rest ([], [w0]) in
      segments ++ [current]
  end.

Inductive Kind := Single | Full | Left | Right.

Definition Kind_eqb (a b : Kind) : bool :=
  match a, b with
  | Single, Single | Full, Full | Left, Left | Right, Right => true
  | _, _ => false
  end.

Record Line := mkLine {
  ln_y : Q;
  ln_x0 : Q;
  ln_x1 : Q;
  ln_text : str;
  ln_kind : Kind
}.

(** The row loop of [words_to_lines]; the state is
    [(rows, current_row, current_y)]. *)
Definition row_step (y_tol : Q)
    (st : list (list Token) * list Token * Q) (w : Token)
    : list (list Token) * list Token * Q :=
  let '(rows, current_row, current_y) := st in
  if Qle_bool (Qabs (fsub (w_top w) current_y)) y_tol
  then (rows, current_row ++ [w], current_y)
  else (rows ++ [current_row], [w], w_top w).

Definition group_rows (words_sorted : list Token) (y_tol : Q)
    : list (list Token) :=
  match words_sorted with
  | [] => []
  | w0 :: _ =>
      let '(rows, current_row, _) :=
        fold_left (row_step y_tol) words_sorted ([], [], w_top w0) in
      match current_row with
      | [] => rows
      | _ :: _ => rows ++ [current_row]
      end
  end.

Definition min_gap_default : Q := 25.

Section Lines.
Context {U : Unicode}.

(** The body of the segment loop: one [Line] per segment. *)
Definition line_of_segment (seg : list Token) : Line :=
  let text := join (lit " ") (map w_text seg) in
  {| ln_y := py_min (map w_top seg);
     ln_x0 := py_min (map w_x0 seg);
     ln_x1 := py_max (map w_x1 seg);
     ln_text := norm_space text;
     ln_kind := Single |}.

(** The body of the row loop: sort by [x0], split, append the lines. *)
Definition lines_step (out : list Line) (row : list Token) : list Line :=
  let row_sorted := sorted w_x0 Qltb row in
  let segments := split_by_gutter_gap row_sorted min_gap_default in
  fold_left (fun out seg => out ++ [line_of_segment seg]) segments out.

Definition words_to_lines (words : list Token) (y_tol : Q) : list Line :=
  match words with
  | [] => []
  | _ :: _ =>
      let words_sorted :=
        sorted (fun w => (w_top w, w_x0 w)) pair_ltb words in
      let rows := group_rows words_sorted y_tol in
      fold_left lines_step rows []
  end.
End Lines.

(** The segments behind the lines of a page, in the order the lines are
    built. *)
Definition page_segments (words : list Token) (y_tol : Q)
    : list (list Token) :=
  flat_map
    (fun row => split_by_gutter_gap (sorted w_x0 Qltb row) min_gap_default)
    (group_rows (sorted (fun w => (w_top w, w_x0 w)) pair_ltb words) y_tol).

(** ** Regular expressions

    The fragment of [re] the code uses.  Only whether a pattern matches is
    ever read, so the matcher decides the language of the pattern and does
    not track groups or greediness.  [prev] is the character before the
    current position ([None] at the start of the string). *)

Inductive re :=
| Eps
| Chr (p : N -> bool)
| Seq (a b : re)
| Alt (a b : re)
| Star (a : re)
| Bol                              (* ^ *)
| Eol                              (* $ *)
| WordB.                           (* \b *)

Definition Plus (a : re) : re := Seq a (Star a).

Definition Ch (c : N) : re := Chr (N.eqb c).

(** A literal string. *)
Fixpoint Str (s : str) : re :=
  match s with
  | [] => Eps
  | c :: s' => Seq (Ch c) (Str s')
  end.

Definition at_eol (s : str) : bool :=
  match s with
  | [] => true
  | [c] => (c =? 10)%N
  | _ => false
  end.

Section Regex.
Context {U : Unicode}.

Definition word_at (c : option N) : bool :=
  match c with
  | Some c => isword c
  | None => false
  end.

Definition at_boundary (prev : option N) (s : str) : bool :=
  xorb (word_at prev) (word_at (hd_error s)).

(** The loop of a starred pattern: stop, or match the body once more on a
    strictly shorter rest.  [n] bounds the turns by the length of the
    string. *)
Fixpoint star_loop
    (body : option N -> str -> (option N -> str -> bool) -> bool)
    (k : option N -> str -> bool) (n : nat) (prev : option N) (s : str)
    : bool :=
  k prev s ||
  match n with
  | O => false
  | S n' =>
      body prev s
        (fun prev' s' =>
           (length s' <? length s)%nat && star_loop body k n' prev' s')
  end.

Fixpoint rmatch (r : re) (prev : option N) (s : str)
    (k : option N -> str -> bool) {struct r} : bool :=
  match r with
  | Eps => k prev s
  | Chr p =>
      match s with
      | c :: s' => p c && k (Some c) s'
      | [] => false
      end
  | Seq a b => rmatch a prev s (fun prev' s' => rmatch b prev' s' k)
  | Alt a b => rmatch a prev s k || rmatch b prev s k
  | Star a => star_loop (rmatch a) k (length s) prev s
  | Bol => match prev with None => k prev s | Some _ => false end
  | Eol => at_eol s && k prev s
  | WordB => at_boundary prev s && k prev s
  end.

(** [re.match(r, s)] as a truth value. *)
Definition re_match (r : re) (s : str) : bool :=
  rmatch r None s (fun _ _ => true).

(** [re.fullmatch(r, s)] as a truth value. *)
Definition re_fullmatch (r : re) (s : str) : bool :=
  rmatch r None s (fun _ s' => match s' with [] => true | _ => false end).

Fixpoint search_from (r : re) (prev : option N) (s : str) : bool :=
  rmatch r prev s (fun _ _ => true) ||
  match s with
  | [] => false
  | c :: s' => search_from r (Some c) s'
  end.

(** [re.search(r, s)] as a truth value. *)
Definition re_search (r : re) (s : str) : bool := search_from r None s.

Definition digit : re := Chr isdecimal.
Definition space : re := Chr isspace.

(** [r"\d+"] *)
Definition page_number_re : re := Plus digit.
(** [r"\b\d+\b"] *)
Definition standalone_number_re : re := Seq WordB (Seq (Plus digit) WordB).
(** [r"^(•|-|–|\*|\d+\.)\s+"] *)
Definition bullet_re : re :=
  Seq Bol
    (Seq (Alt (Ch 8226) (Alt (Ch 45) (Alt (Ch 8211) (Alt (Ch 42)
            (Seq (Plus digit) (Ch 46))))))
         (Plus space)).
(** [[A-Z]] and [[A-Z\s]] *)
Definition A_Z (c : N) : bool := ((65 <=? c) && (c <=? 90))%N.
Definition A_Z_space (c : N) : bool := A_Z c || isspace c.
(** [r"^[A-Z][A-Z\s]{3,}$"] *)
Definition heading_re : re :=
  Seq Bol
    (Seq (Chr A_Z)
       (Seq (Chr A_Z_space) (Seq (Chr A_Z_space) (Seq (Chr A_Z_space)
          (Seq (Star (Chr A_Z_space)) Eol))))).
(** [r"^(figure|table|box)\s+\d"] *)
Definition caption_re : re :=
  Seq Bol
    (Seq (Alt (Str (lit "figure")) (Alt (Str (lit "table")) (Str (lit "box"))))
       (Seq (Plus space) digit)).
End Regex.

(** ** Text heuristics *)

Definition nonempty {A} (l : list A) : bool :=
  match l with [] => false | _ :: _ => true end.

Section Heuristics.
Context {U : Unicode}.

Definition is_likely_header_footer (line : str) : bool :=
  let s := lower (norm_space line) in
  if re_fullmatch page_number_re s then true
  else if contains s (lit "future of jobs report")
          && re_search standalone_number_re s then true
  else if startswith s (lit "january 2025")
          && contains s (lit "future of jobs report") then true
  else false.

Definition merge_hyphenation (prev nxt : str) : str * str * bool :=
  if endswith prev (lit "-") && nonempty nxt
     && match nxt with c :: _ => islower c | [] => false end
  then (removelast prev, nxt, true)
  else (prev, nxt, false).

Definition should_join_with_space (prev nxt : str) : bool :=
  let prev_s := rstrip prev in
  let nxt_s := lstrip nxt in
  if negb (nonempty prev_s) then false
  else if re_match bullet_re nxt_s then false
  else if re_match heading_re nxt_s then false
  else if re_match caption_re (lower nxt_s) then false
  else if endswith prev_s (lit ".") || endswith prev_s (lit "!")
          || endswith prev_s (lit "?") || endswith prev_s (lit ":")
  then false
  else true.
End Heuristics.

(** ** Column classification and reading order *)

Definition set_kind (ln : Line) (k : Kind) : Line :=
  {| ln_y := ln_y ln; ln_x0 := ln_x0 ln; ln_x1 := ln_x1 ln;
     ln_text := ln_text ln; ln_kind := k |}.

(** The kind [classify_columns] gives a line. *)
Definition column_kind (mid : Q) (ln : Line) : Kind :=
  if Qltb (ln_x0 ln) mid && Qltb mid (ln_x1 ln) then Full
  else if Qle_bool (ln_x1 ln) mid then Left else Right.

Definition classify_step (mid : Q) (classified : list Line) (ln : Line)
    : list Line :=
  classified ++ [set_kind ln (column_kind mid ln)].

Definition classify_columns (lines : list Line) (page_width gutter_ratio : Q)
    : list Line :=
  let mid := (page_width * gutter_ratio)%Q in
  fold_left (classify_step mid) lines [].

Definition gutter_ratio_default : Q := 1 # 2.

Definition of_kind (k : Kind) (lines : list Line) : list Line :=
  filter (fun ln => Kind_eqb (ln_kind ln) k) lines.

(** [full + left + right] of [reconstruct_page_text]. *)
Definition ordered_lines (lines : list Line) : list Line :=
  let full := sorted ln_y Qltb (of_kind Full lines) in
  let left := sorted ln_y Qltb (of_kind Left lines) in
  let right := sorted ln_y Qltb (of_kind Right lines) in
  full ++ left ++ right.

(** ** Filtering and paragraph merging *)

Definition set_last {A} (l : list A) (v : A) : list A := removelast l ++ [v].

Section Paragraphs.
Context {U : Unicode}.

Definition filter_step (drop_headers_footers : bool)
    (filtered : list str) (ln : Line) : list str :=
  if negb (nonempty (ln_text ln)) then filtered
  else if drop_headers_footers && is_likely_header_footer (ln_text ln)
  then filtered
  else filtered ++ [ln_text ln].

Definition filter_lines (drop_headers_footers : bool) (ordered : list Line)
    : list str :=
  fold_left (filter_step drop_headers_footers) ordered [].

(** One turn of the merging loop; every turn consumes [filtered[i]] and
    advances [i] by one. *)
Definition merge_step (out_lines : list str) (cur : str) : list str :=
  match out_lines with
  | [] => [cur]
  | _ :: _ =>
      let prev := last out_lines [] in
      let '(prev2, cur2, did_merge) := merge_hyphenation prev cur in
      if did_merge then set_last out_lines (prev2 ++ cur2)
      else if should_join_with_space prev cur
      then set_last out_lines (rstrip prev ++ lit " " ++ lstrip cur)
      else out_lines ++ [cur]
  end.

Definition merge_paragraphs (filtered : list str) : list str :=
  fold_left merge_step filtered [].
End Paragraphs.

(** ** Pages and documents *)

(** A page of the token source: its index, its dimensions and the words
    [extract_words] yields for it. *)
Record Page := mkPage {
  page_number : Z;
  width : Q;
  height : Q;
  words : list Token
}.

Definition BBox := (Q * Q * Q * Q)%type.

Record PageRecord := mkRecord {
  r_page_number : Z;
  r_width : Q;
  r_height : Q;
  r_text : str;
  r_line_count : nat
}.

(** Truth value of a number. *)
Definition truthy (q : Q) : bool := negb (Qeq_bool q 0).

Definition nl : str := [10%N].

(** [str(n)] of an integer. *)
Definition decimal (z : Z) : str := lit (NilZero.string_of_int (Z.to_int z)).

(** The files the extractor writes; [None] is a file never opened.  A JSON
    line is kept as the record it serialises. *)
Record Files := mkFiles {
  jsonl_file : option (list PageRecord);
  txt_file : option str
}.

Inductive outcome := Returned | Raised.

Section Document.
Context {U : Unicode}.

(** [page.crop(bbox)] of the token source; [None] when it raises. *)
Variable crop : Page -> BBox -> option Page.

(** The page whose words are read: [page.crop(bbox) if bbox else page]. *)
Definition cropped_page (page : Page) (crop_top crop_bottom : Q)
    : option Page :=
  let bbox :=
    if truthy crop_top || truthy crop_bottom
    then Some (0%Q, crop_top, width page, fsub (height page) crop_bottom)
    else None in
  match bbox with
  | Some b => crop page b
  | None => Some page
  end.

(** The paragraphs of a page: [out_lines] at the end of
    [reconstruct_page_text]. *)
Definition page_paragraphs (p : Page) (y_tol : Q)
    (drop_headers_footers : bool) : list str :=
  let lines := words_to_lines (words p) y_tol in
  let lines := classify_columns lines (width p) gutter_ratio_default in
  let ordered := ordered_lines lines in
  let filtered := filter_lines drop_headers_footers ordered in
  merge_paragraphs filtered.

Definition reconstruct_page_text (page : Page) (y_tol : Q)
    (drop_headers_footers : bool) (crop_top crop_bottom : Q)
    : option PageRecord :=
  match cropped_page page crop_top crop_bottom with
  | None => None
  | Some p =>
      let out_lines := page_paragraphs p y_tol drop_headers_footers in
      let page_text := strip (join nl out_lines) in
      Some {| r_page_number := page_number page;
              r_width := width page;
              r_height := height page;
              r_text := page_text;
              r_line_count := length out_lines |}
  end.

(** The text of one page in the text file. *)
Definition page_block (rec : PageRecord) : str :=
  nl ++ nl ++ lit "--- PAGE " ++ decimal (r_page_number rec) ++ lit " ---"
     ++ nl ++ nl ++ r_text rec.

(** The page loop of [extract_pdf]: the JSON lines written so far and,
    unless a page raised, the accumulated text blocks. *)
Fixpoint page_loop (pages : list Page) (y_tol : Q)
    (drop_headers_footers : bool) (crop_top crop_bottom : Q)
    (written : list PageRecord) (all_text_pages : list str)
    : list PageRecord * option (list str) :=
  match pages with
  | [] => (written, Some all_text_pages)
  | page :: rest =>
      match reconstruct_page_text page y_tol drop_headers_footers
              crop_top crop_bottom with
      | None => (written, None)
      | Some rec =>
          page_loop rest y_tol drop_headers_footers crop_top crop_bottom
            (written ++ [rec]) (all_text_pages ++ [page_block rec])
      end
  end.

(** The number of pages to read:
    [min(total, max_pages) if max_pages else total]. *)
Definition page_limit (total : Z) (max_pages : option Z) : Z :=
  match max_pages with
  | None => total
  | Some m => if (m =? 0)%Z then total else Z.min total m
  end.

(** The pages the loop visits: [pdf.pages[idx] for idx in range(n)]. *)
Definition pages_read (pdf : list Page) (max_pages : option Z)
    : list Page :=
  let total := Z.of_nat (length pdf) in
  let n := page_limit total max_pages in
  firstn (Z.to_nat n) pdf.

Definition extract_pdf (pdf : list Page) (max_pages : option Z) (y_tol : Q)
    (drop_headers_footers : bool) (crop_top crop_bottom : Q) (fs : Files)
    : Files * outcome :=
  match page_loop (pages_read pdf max_pages) y_tol drop_headers_footers
          crop_top crop_bottom [] [] with
  | (written, None) =>
      ({| jsonl_file := Some written; txt_file := txt_file fs |}, Raised)
  | (written, Some all_text_pages) =>
      ({| jsonl_file := Some written;
          txt_file := Some (strip (concat all_text_pages)) |}, Returned)
  end.
End Document.

(** Modelled from the spec: [page.crop] belongs to the pdfplumber library,
    which is not part of the repository.  The spec has the crop restrict the
    page to the band from [crop_top] to [height - crop_bottom], exclude the
    words outside it, and fail on a negative crop or one larger than the
    page.  [strict_crop] does so for a page whose box starts at the origin
    and keeps the words that lie inside the band whole; it serves to run
    examples, and every theorem about cropping holds for any [crop]. *)
Definition inside (b : BBox) (w : Token) : bool :=
  let '(l, t, r, btm) := b in
  Qle_bool l (w_x0 w) && Qle_bool (w_x1 w) r
  && Qle_bool t (w_top w) && Qle_bool (w_bottom w) btm.

Definition strict_crop (page : Page) (b : BBox) : option Page :=
  let '(l, t, r, btm) := b in
  if Qltb r l || Qltb btm t then None
  else if Qeq_bool ((r - l) * (btm - t)) 0 then None
  else if Qle_bool 0 l && Qle_bool 0 t
          && Qle_bool r (width page) && Qle_bool btm (height page)
  then Some {| page_number := page_number page;
               width := fsub r l;
               height := fsub btm t;
               words := filter (inside b) (words page) |}
  else None.

(** ** The command line *)

(** The options of [main] as the argument parser receives them: the text
    given for an option, or [None] when the option is absent.  The three
    paths are left out: the files are those of [Files] and the document is
    given by its pages. *)
Record Args := mkArgs {
  a_max_pages : option str;
  a_y_tol : option str;
  a_keep_headers_footers : bool;
  a_crop_top : option str;
  a_crop_bottom : option str
}.

(** The value of an option: its default when absent, else its text through
    the [type] of the option; [None] when the conversion fails. *)
Definition converted {A} (type : str -> option A) (default : A)
    (arg : option str) : option A :=
  match arg with
  | None => Some default
  | Some s => type s
  end.

Definition y_tol_default : Q := 3.

Section Main.
Context {U : Unicode}.

(** [float] and [int] of Python on a string; [None] when they raise. *)
Variable float : str -> option Q.
Variable int : str -> option Z.
Variable crop : Page -> BBox -> option Page.

(** [main]: the parser converts every option before [extract_pdf] is
    called, and exits with an error when a conversion fails. *)
Definition main (args : Args) (pdf : list Page) (fs : Files)
    : Files * outcome :=
  match converted (fun s => option_map Some (int s)) None (a_max_pages args),
        converted float y_tol_default (a_y_tol args),
        converted float 0%Q (a_crop_top args),
        converted float 0%Q (a_crop_bottom args) with
  | Some max_pages, Some y_tol, Some crop_top, Some crop_bottom =>
      extract_pdf crop pdf max_pages y_tol
        (negb (a_keep_headers_footers args)) crop_top crop_bottom fs
  | _, _, _, _ => (fs, Raised)
  end.
End Main.

(** Modelled from the spec: [int] and [float] are builtins of Python, not
    part of the repository; the spec only separates numeric from non-numeric
    text.  [whole] reads a string of ASCII digits and rejects any other
    text; it serves to run examples, and every theorem about the command
    line holds for any [float] and [int]. *)
Fixpoint whole_digits (s : str) (acc : Z) : option Z :=
  match s with
  | [] => Some acc
  | c :: s' =>
      if ascii_isdecimal c
      then whole_digits s' (10 * acc + Z.of_N (c - 48))%Z
      else None
  end.

Definition whole (s : str) : option Z :=
  match s with
  | [] => None
  | _ :: _ => whole_digits s 0%Z
  end.

(** ** What the specification says, as predicates *)

(** Consecutive words of one segment are closer than the gap; the gap is
    the difference the code computes, [x0 - previous x1] on floats. *)
Definition near (min_gap : Q) (a b : Token) : Prop :=
  (fsub (w_x0 b) (w_x1 a) < min_gap)%Q.

(** A segment ends, and the next one starts, at a gap of [min_gap] or more. *)
Definition far (min_gap : Q) (s t : list Token) : Prop :=
  forall s' a b t', s = s' ++ [a] -> t = b :: t' ->
    (min_gap <= fsub (w_x0 b) (w_x1 a))%Q.

(** [segs] cuts [row] exactly at the gaps of [min_gap] or more. *)
Definition gutter_segments (min_gap : Q) (row : list Token)
    (segs : list (list Token)) : Prop :=
  concat segs = row
  /\ Forall (fun s => s <> []) segs
  /\ Forall (Sorted (near min_gap)) segs
  /\ Sorted (far min_gap) segs.

(** The box of a line strictly straddles [mid]. *)
Definition straddles (mid : Q) (ln : Line) : Prop :=
  (ln_x0 ln < mid /\ mid < ln_x1 ln)%Q.

(** [ln'] is [ln] with its kind assigned by the classification rule. *)
Definition classified (mid : Q) (ln ln' : Line) : Prop :=
  ln_y ln' = ln_y ln /\ ln_x0 ln' = ln_x0 ln /\ ln_x1 ln' = ln_x1 ln
  /\ ln_text ln' = ln_text ln
  /\ (ln_kind ln' = Full <-> straddles mid ln)
  /\ (ln_kind ln' = Left <-> ~ straddles mid ln /\ (ln_x1 ln <= mid)%Q)
  /\ (ln_kind ln' = Right <-> ~ straddles mid ln /\ ~ (ln_x1 ln <= mid)%Q).

(** Ascending keys, and the elements of one key. *)
Definition key_le A (key : A -> Q) (a b : A) : Prop := (key a <= key b)%Q.
Definition at_key A (key : A -> Q) (v : Q) (a : A) : bool :=
  Qeq_bool (key a) v.

(** [B] is the bucket of kind [k] of [lines]: the lines of that kind, in
    ascending [y], those of one [y] in the order they have in [lines]. *)
Definition bucket (k : Kind) (lines B : list Line) : Prop :=
  Forall (fun ln => ln_kind ln = k) B
  /\ Permutation B (of_kind k lines)
  /\ StronglySorted (key_le ln_y) B
  /\ (forall v, filter (at_key ln_y v) B
                = filter (at_key ln_y v) (of_kind k lines)).

(** Every Full line comes before every line that is not Full. *)
Definition full_first (out : list Line) : Prop :=
  forall i j a b,
    nth_error out i = Some a -> nth_error out j = Some b ->
    ln_kind a = Full -> ln_kind b <> Full -> (i < j)%nat.

(** The newline-separated blocks of a text; an empty text has none. *)
Fixpoint split_nl (s cur : str) : list str :=
  match s with
  | [] => [cur]
  | c :: s' =>
      if (c =? 10)%N then cur :: split_nl s' [] else split_nl s' (cur ++ [c])
  end.

Definition blocks (text : str) : list str :=
  match text with
  | [] => []
  | _ :: _ => split_nl text []
  end.

(** A string that starts and ends with a character that is not whitespace. *)
Definition first_ok (U : Unicode) (s : str) : Prop :=
  forall c t, s = c :: t -> isspace c = false.
Definition last_ok (U : Unicode) (s : str) : Prop :=
  forall t c, s = t ++ [c] -> isspace c = false.

(** A paragraph: not empty, trimmed, with whitespace only as single
    spaces. *)
Definition tidy (U : Unicode) (s : str) : Prop :=
  s <> [] /\ first_ok U s /\ last_ok U s
  /\ Forall (fun c => c = 32%N \/ isspace c = false) s.

(** A crop that is negative or takes more than the height of the page. *)
Definition invalid_crop (page : Page) (crop_top crop_bottom : Q) : Prop :=
  (crop_top < 0 \/ crop_bottom < 0
   \/ height page < crop_top + crop_bottom)%Q.

(** The character before the position reached after reading [w]. *)
Definition last_of (p : option N) (w : str) : option N :=
  match rev w with
  | c :: _ => Some c
  | [] => p
  end.

(** The language of a pattern: [Matches r p w rest] when [r] matches the
    word [w] that follows the character [p] and is followed by [rest]. *)
Inductive Matches {U : Unicode} : re -> option N -> str -> str -> Prop :=
| M_Eps p rest : Matches Eps p [] rest
| M_Chr (f : N -> bool) c p rest : f c = true -> Matches (Chr f) p [c] rest
| M_Seq a b p w1 w2 rest :
    Matches a p w1 (w2 ++ rest) -> Matches b (last_of p w1) w2 rest ->
    Matches (Seq a b) p (w1 ++ w2) rest
| M_AltL a b p w rest : Matches a p w rest -> Matches (Alt a b) p w rest
| M_AltR a b p w rest : Matches b p w rest -> Matches (Alt a b) p w rest
| M_Star0 a p rest : Matches (Star a) p [] rest
| M_StarS a p w1 w2 rest :
    w1 <> [] -> Matches a p w1 (w2 ++ rest) ->
    Matches (Star a) (last_of p w1) w2 rest ->
    Matches (Star a) p (w1 ++ w2) rest
| M_Bol rest : Matches Bol None [] rest
| M_Eol p rest : at_eol rest = true -> Matches Eol p [] rest
| M_WordB p rest : at_boundary p rest = true -> Matches WordB p [] rest.

(** What it is for a matcher run to succeed on [r]: a prefix of [s] is in
    the language of [r] and the continuation accepts what follows. *)
Definition accepts {U : Unicode} (r : re) (p : option N) (s : str)
    (k : option N -> str -> bool) : Prop :=
  exists w rest,
    s = w ++ rest /\ Matches r p w rest /\ k (last_of p w) rest = true.

(** The conditions of the join decision, on the strings themselves. *)
Section JoinConditions.
Context {U : Unicode}.

(** A run of one or more whitespace characters. *)
Definition spaces (ws : str) : Prop :=
  ws <> [] /\ Forall (fun c => isspace c = true) ws.

(** A bullet or list marker: one of the four bullets, or a number and a
    period. *)
Definition is_marker (m : str) : Prop :=
  m = [8226%N] \/ m = lit "-" \/ m = [8211%N] \/ m = lit "*"
  \/ exists ds, ds <> [] /\ Forall (fun c => isdecimal c = true) ds
                /\ m = ds ++ lit ".".

(** The line starts with a marker, whatever follows it. *)
Definition starts_with_marker (s : str) : Prop :=
  exists m rest, is_marker m /\ s = m ++ rest.

(** The line starts with a marker and whitespace after it. *)
Definition bullet_line (s : str) : Prop :=
  exists m ws rest, is_marker m /\ spaces ws /\ s = m ++ ws ++ rest.

(** A capital letter and at least three more capitals or whitespace
    characters, and nothing else. *)
Definition heading_line (s : str) : Prop :=
  exists c t, s = c :: t /\ A_Z c = true /\ (3 <= length t)%nat
              /\ Forall (fun c => A_Z_space c = true) t.

(** figure, table or box, then whitespace, then a digit. *)
Definition caption_line (s : str) : Prop :=
  exists word ws d rest,
    (word = lit "figure" \/ word = lit "table" \/ word = lit "box")
    /\ spaces ws /\ isdecimal d = true /\ s = word ++ ws ++ d :: rest.

Definition blank (s : str) : Prop := Forall (fun c => isspace c = true) s.

Definition ends_sentence (s : str) : Prop :=
  exists t c, s = t ++ [c]
              /\ (c = 46 \/ c = 33 \/ c = 63 \/ c = 58)%N.

Definition do_not_join (prev nxt : str) : Prop :=
  blank prev
  \/ bullet_line (lstrip nxt)
  \/ heading_line (lstrip nxt)
  \/ caption_line (lower (lstrip nxt))
  \/ ends_sentence (rstrip prev).

(** The hyphenation merge applies to the pair. *)
Definition hyphen_merge_applies (prev nxt : str) : Prop :=
  exists p c rest,
    prev = p ++ lit "-" /\ nxt = c :: rest /\ islower c = true.
End JoinConditions.

(** Whitespace only as U+0020, and never two whitespace characters in a
    row. *)
Definition apart (U : Unicode) (a b : N) : Prop :=
  isspace a = false \/ isspace b = false.

Definition spaced (U : Unicode) (s : str) : Prop :=
  Forall (fun c => c = 32%N \/ isspace c = false) s /\ Sorted (apart U) s.

(** The normal form of [norm_space]. *)
Definition normalised (U : Unicode) (s : str) : Prop :=
  first_ok U s /\ last_ok U s /\ spaced U s.

(** A word as the token source yields it: some text, no whitespace in it. *)
Definition solid (U : Unicode) (t : str) : Prop :=
  t <> [] /\ Forall (fun c => isspace c = false) t.

(** The words of a row lie within the tolerance of its first word; the
    distance is the one the code computes, [abs(top - current_y)] on
    floats. *)
Definition row_within (y_tol : Q) (row : list Token) : Prop :=
  match row with
  | [] => True
  | a :: t =>
      Forall (fun w => (Qabs (fsub (w_top w) (w_top a)) <= y_tol)%Q) t
  end.

(** A row ends where the next word is beyond the tolerance of its first
    word. *)
Definition row_break (y_tol : Q) (r1 r2 : list Token) : Prop :=
  forall a t b t', r1 = a :: t -> r2 = b :: t' ->
    (y_tol < Qabs (fsub (w_top b) (w_top a)))%Q.

(** The number of gaps of [min_gap] or more between neighbours of a row,
    each gap the float the code computes. *)
Fixpoint big_gaps (min_gap : Q) (row : list Token) : nat :=
  match row with
  | a :: (b :: _) as t =>
      (if Qle_bool min_gap (fsub (w_x0 b) (w_x1 a)) then 1 else 0)
      + big_gaps min_gap t
  | _ => 0
  end.

(** What a text keeps through merging: its characters other than
    whitespace, U+0020 and the hyphen. *)
Definition essence (U : Unicode) (s : str) : str :=
  filter (fun c => negb (isspace c || (c =? 32)%N || (c =? 45)%N)) s.

(** [a] does not sort after [b]. *)
Definition not_after A K (key : A -> K) (lt : K -> K -> bool) (a b : A)
    : Prop :=
  lt (key b) (key a) = false.

(** The gaps of the words at 10, 40, 200 and 230, each [wd] wide: the first
    and the third under 25, the second 25 or more. *)
Definition scenario_gaps (wd : Z) : bool :=
  Qltb (fsub 40 (10 + inject_Z wd)) 25
  && Qle_bool 25 (fsub 200 (40 + inject_Z wd))
  && Qltb (fsub 230 (200 + inject_Z wd)) 25.

(** The words of a text: its runs of characters that are not whitespace
    ([text.split()]). *)
Fixpoint split_ws (U : Unicode) (s cur : str) : list str :=
  match s with
  | [] => match cur with [] => [] | _ :: _ => [cur] end
  | c :: s' =>
      if isspace c
      then match cur with
           | [] => split_ws U s' []
           | _ :: _ => cur :: split_ws U s' []
           end
      else split_ws U s' (cur ++ [c])
  end.

Definition line_words (U : Unicode) (ln : Line) : list str :=
  split_ws U (ln_text ln) [].

(** [ln] is the line of the words of [seg]: its text is their texts joined
    and normalised, its box is the least box around them, its kind is the
    placeholder. *)
Definition built_from (U : Unicode) (seg : list Token) (ln : Line) : Prop :=
  seg <> []
  /\ ln_text ln = norm_space (join (lit " ") (map w_text seg))
  /\ Forall (fun w => (ln_x0 ln <= w_x0 w)%Q /\ (w_x1 w <= ln_x1 ln)%Q
                      /\ (ln_y ln <= w_top w)%Q) seg
  /\ In (ln_x0 ln) (map w_x0 seg)
  /\ In (ln_x1 ln) (map w_x1 seg)
  /\ In (ln_y ln) (map w_top seg)
  /\ ln_kind ln = Single.

(** Lines in reading order: the Full lines by ascending [y], then the Left
    lines by ascending [y], then the Right lines by ascending [y]. *)
Definition reading_ordered (lines : list Line) : Prop :=
  exists F L R,
    lines = F ++ L ++ R
    /\ Forall (fun ln => ln_kind ln = Full) F
    /\ Forall (fun ln => ln_kind ln = Left) L
    /\ Forall (fun ln => ln_kind ln = Right) R
    /\ StronglySorted (key_le ln_y) F
    /\ StronglySorted (key_le ln_y) L
    /\ StronglySorted (key_le ln_y) R.

(** * Properties *)

(** ** Rational comparisons *)

Lemma Qltb_lt a b : Qltb a b = true <-> (a < b)%Q.
Proof.
  unfold Qltb. rewrite negb_true_iff. split; intros H.
  - apply Qnot_le_lt. intros L. apply Qle_bool_iff in L. congruence.
  - destruct (Qle_bool b a) eqn:E; [|reflexivity].
    apply Qle_bool_iff in E. exfalso. exact (Qlt_not_le _ _ H E).
Qed.

Lemma Qltb_ge a b : Qltb a b = false <-> (b <= a)%Q.
Proof.
  unfold Qltb. rewrite negb_false_iff. apply Qle_bool_iff.
Qed.

Lemma Qle_bool_gt a b : Qle_bool a b = false <-> (b < a)%Q.
Proof.
  rewrite <- Qltb_lt. unfold Qltb. now rewrite negb_true_iff.
Qed.

(** ** Lists built by appending *)

Lemma Sorted_snoc A (R : A -> A -> Prop) l a x :
  Sorted R (l ++ [a]) -> R a x -> Sorted R (l ++ [a; x]).
Proof.
  induction l as [|z l IH]; simpl; intros S HR.
  - repeat constructor; assumption.
  - inversion S as [|? ? S' H]; subst. constructor; [auto|].
    destruct l; simpl in *; inversion H; subst; constructor; assumption.
Qed.

Lemma Sorted_change_last A (R : A -> A -> Prop) l a a' :
  Sorted R (l ++ [a]) -> (forall z, R z a -> R z a') ->
  Sorted R (l ++ [a']).
Proof.
  induction l as [|z l IH]; simpl; intros S HR.
  - repeat constructor.
  - inversion S as [|? ? S' H]; subst. constructor; [auto|].
    destruct l; simpl in *; inversion H; subst; constructor; auto.
Qed.

Lemma Forall_snoc A (P : A -> Prop) l x :
  Forall P (l ++ [x]) <-> Forall P l /\ P x.
Proof.
  rewrite Forall_app. split; intros [H1 H2]; split; auto.
  now inversion H2.
Qed.

Lemma concat_snoc A (l : list (list A)) x :
  concat (l ++ [x]) = concat l ++ x.
Proof. now rewrite concat_app; simpl; rewrite app_nil_r. Qed.

(** ** The gutter splitter *)

Section Gutter.
Variable min_gap : Q.

Lemma gutter_step_keeps done segs cur w :
  gutter_segments min_gap done (segs ++ [cur]) ->
  let '(segs', cur') := gutter_step min_gap (segs, cur) w in
  gutter_segments min_gap (done ++ [w]) (segs' ++ [cur']).
Proof.
  intros (Hc & Hne & Hnear & Hfar).
  apply Forall_snoc in Hne as [Hne Hcur].
  apply Forall_snoc in Hnear as [Hnear Hncur].
  destruct (exists_last Hcur) as (c' & p & ->).
  unfold gutter_step. rewrite last_last.
  destruct (Qle_bool min_gap (fsub (w_x0 w) (w_x1 p))) eqn:E.
  - apply Qle_bool_iff in E.
    repeat split.
    + now rewrite concat_snoc, Hc.
    + repeat (apply Forall_snoc; split); auto; discriminate.
    + repeat (apply Forall_snoc; split); auto.
    + rewrite <- app_assoc. apply Sorted_snoc; [assumption|].
      intros s' a b t' E1 E2. apply app_inj_tail in E1 as [_ <-].
      now injection E2 as <- _.
  - apply Qle_bool_gt in E.
    repeat split.
    + rewrite concat_snoc in *. now rewrite app_assoc, Hc.
    + apply Forall_snoc; split; auto. now destruct c'.
    + apply Forall_snoc; split; auto.
      rewrite <- app_assoc. apply Sorted_snoc; assumption.
    + apply Sorted_change_last with (a := c' ++ [p]); [assumption|].
      intros z Hz s' a b t' E1 E2. apply (Hz s' a b (tl (c' ++ [p]) )); auto.
      destruct c'; simpl in *; congruence.
Qed.

Lemma gutter_fold_keeps rest : forall done segs cur,
  gutter_segments min_gap done (segs ++ [cur]) ->
  let '(segs', cur') := fold_left (gutter_step min_gap) rest (segs, cur) in
  gutter_segments min_gap (done ++ rest) (segs' ++ [cur']).
Proof.
  induction rest as [|w rest IH]; intros done segs cur H; cbn [fold_left].
  - now rewrite app_nil_r.
  - pose proof (@gutter_step_keeps done segs cur w H) as H'.
    destruct (gutter_step min_gap (segs, cur) w) as [segs1 cur1].
    specialize (IH _ _ _ H'). now rewrite <- app_assoc in IH.
Qed.

Lemma split_is_gutter_segments row :
  gutter_segments min_gap row (split_by_gutter_gap row min_gap).
Proof.
  destruct row as [|w0 rest]; simpl.
  - repeat split; constructor.
  - assert (H0 : gutter_segments min_gap [w0] ([] ++ [[w0]])).
    { repeat split; repeat constructor. discriminate. }
    pose proof (@gutter_fold_keeps rest _ _ _ H0) as H.
    now destruct (fold_left _ rest _).
Qed.

Lemma split_concat row : concat (split_by_gutter_gap row min_gap) = row.
Proof. apply split_is_gutter_segments. Qed.

Lemma split_nonempty row :
  Forall (fun s => s <> []) (split_by_gutter_gap row min_gap).
Proof. apply split_is_gutter_segments. Qed.

Lemma gutter_segments_tail a b r ss t :
  gutter_segments min_gap (a :: t) ((a :: b :: r) :: ss) ->
  gutter_segments min_gap t ((b :: r) :: ss).
Proof.
  intros (Hc & Hne & Hnear & Hfar). simpl in Hc. injection Hc as Hc.
  inversion Hne; inversion Hnear; inversion Hfar; subst.
  repeat split; auto.
  - constructor; auto; discriminate.
  - constructor; auto.
    match goal with H : Sorted _ (a :: _) |- _ => now inversion H end.
  - constructor; auto.
    match goal with H : HdRel _ _ ss |- _ =>
      inversion H as [|t1 ss1 Hf]; subst; constructor end.
    intros s' x y t' E1 E2. apply (Hf (a :: s') x y t'); auto.
    simpl. now rewrite <- E1.
Qed.

Lemma gutter_segments_unique row : forall segs segs',
  gutter_segments min_gap row segs -> gutter_segments min_gap row segs' ->
  segs = segs'.
Proof.
  assert (clash : forall a b r ss ss' t,
    gutter_segments min_gap (a :: t) ([a] :: ss) ->
    gutter_segments min_gap (a :: t) ((a :: b :: r) :: ss') -> False).
  { intros a b r ss ss' t (Hc & Hne & _ & Hfar) (Hc' & _ & Hnear' & _).
    simpl in Hc, Hc'. injection Hc as Hc. injection Hc' as Hc'.
    inversion Hnear' as [|? ? Hn _]; subst.
    inversion Hn as [|? ? _ Hd]; subst. inversion Hd as [|? ? Hab]; subst.
    destruct ss as [|[|b' u] ss]; simpl in Hc'; try discriminate.
    - inversion Hne as [|? ? _ Hne']; inversion Hne'; congruence.
    - injection Hc' as <- _.
      inversion Hfar as [|? ? _ Hh]; subst. inversion Hh as [|? ? Hf]; subst.
      specialize (Hf [] a b u eq_refl eq_refl).
      exact (Qlt_not_le _ _ Hab Hf). }
  induction row as [|a t IH]; intros segs segs' H H'.
  - destruct H as (Hc & Hne & _), H' as (Hc' & Hne' & _).
    destruct segs as [|[|] ?], segs' as [|[|] ?]; simpl in *;
      try discriminate; try reflexivity;
      try (inversion Hne; congruence); inversion Hne'; congruence.
  - assert (shape : forall sg, gutter_segments min_gap (a :: t) sg ->
              exists s ss, sg = (a :: s) :: ss).
    { intros sg (Hc & Hne & _). destruct sg as [|[|x s] ss];
        simpl in Hc; try discriminate.
      - inversion Hne; congruence.
      - injection Hc as -> _. eauto. }
    destruct (shape _ H) as (s & ss & ->).
    destruct (shape _ H') as (s' & ss' & ->).
    destruct s as [|b r], s' as [|b' r'].
    + f_equal. apply IH.
      * destruct H as (Hc & Hne & Hnear & Hfar). simpl in Hc.
        injection Hc as Hc. inversion Hne; inversion Hnear; inversion Hfar.
        repeat split; auto.
      * destruct H' as (Hc & Hne & Hnear & Hfar). simpl in Hc.
        injection Hc as Hc. inversion Hne; inversion Hnear; inversion Hfar.
        repeat split; auto.
    + exfalso. eapply clash; eassumption.
    + exfalso. eapply clash; eassumption.
    + apply gutter_segments_tail in H, H'.
      specialize (IH _ _ H H'). now injection IH as -> -> ->.
Qed.
End Gutter.

(** With words two units wide at 10, 40, 200 and 230 every gap is 25 or
    more, and the row falls into four segments, not two. *)
Lemma gutter_scenario_narrow_words :
  let t x := mkToken (lit "w") x (x + 2) 0 10 in
  split_by_gutter_gap [t 10; t 40; t 200; t 230] 25
  = [[t 10]; [t 40]; [t 200]; [t 230]].
Proof. reflexivity. Qed.

Lemma fsub_compat a a' b b' :
  (a == a')%Q -> (b == b')%Q -> fsub a b = fsub a' b'.
Proof.
  intros Ha Hb. unfold fsub, round64.
  assert (E : Qred (a - b) = Qred (a' - b'))
    by (apply Qred_complete; now rewrite Ha, Hb).
  now rewrite E.
Qed.

Lemma whole_widths_checked :
  forallb scenario_gaps (map (fun k => (6 + Z.of_nat k)%Z) (seq 0 130)) = true.
Proof. vm_compute. reflexivity. Qed.

Lemma whole_width_gaps wd :
  (6 <= wd <= 135)%Z -> scenario_gaps wd = true.
Proof.
  intros H. pose proof whole_widths_checked as C.
  rewrite forallb_forall in C. apply C.
  apply in_map_iff. exists (Z.to_nat (wd - 6)). split; [lia|].
  apply in_seq. lia.
Qed.

(** C4. Gutter splitting: the segments of a row are the one way to cut it
    so that a cut falls exactly where the gap to the previous word, as the
    code computes it, is [min_gap] or more.  Words at 10, 40, 200 and 230
    give the segments {10,40} and {200,230} when the first and third gaps are
    under 25 and the second is 25 or more, as they are for every whole-number
    width from 6 to 135. *)
Theorem gutter_split_law :
  (forall row min_gap,
     gutter_segments min_gap row (split_by_gutter_gap row min_gap)
     /\ (forall segs, gutter_segments min_gap row segs ->
           segs = split_by_gutter_gap row min_gap))
  /\ (forall a b c d : Token,
        w_x0 a == 10 -> w_x0 b == 40 -> w_x0 c == 200 -> w_x0 d == 230 ->
        fsub (w_x0 b) (w_x1 a) < 25 ->
        25 <= fsub (w_x0 c) (w_x1 b) ->
        fsub (w_x0 d) (w_x1 c) < 25 ->
        split_by_gutter_gap [a; b; c; d] min_gap_default
        = [[a; b]; [c; d]])%Q
  /\ (forall (wd : Z) (a b c d : Token),
        (6 <= wd <= 135)%Z ->
        w_x0 a == 10 -> w_x0 b == 40 -> w_x0 c == 200 -> w_x0 d == 230 ->
        w_x1 a == 10 + inject_Z wd -> w_x1 b == 40 + inject_Z wd ->
        w_x1 c == 200 + inject_Z wd ->
        split_by_gutter_gap [a; b; c; d] min_gap_default
        = [[a; b]; [c; d]])%Q.
Proof.
  assert (scenario : forall a b c d : Token,
    (fsub (w_x0 b) (w_x1 a) < 25)%Q ->
    (25 <= fsub (w_x0 c) (w_x1 b))%Q ->
    (fsub (w_x0 d) (w_x1 c) < 25)%Q ->
    split_by_gutter_gap [a; b; c; d] min_gap_default = [[a; b]; [c; d]]).
  { intros a b c d Ha Hb Hc. symmetry.
    eapply gutter_segments_unique; [|apply split_is_gutter_segments].
    unfold min_gap_default. repeat split.
    - repeat constructor; discriminate.
    - repeat constructor; assumption.
    - repeat constructor.
      intros s' x y t' E1 E2.
      change [a; b] with ([a] ++ [b]) in E1.
      apply app_inj_tail in E1 as [_ <-]. injection E2 as <- _.
      assumption. }
  split; [|split].
  - intros row min_gap. split; [apply split_is_gutter_segments|].
    intros segs H. eapply gutter_segments_unique; [exact H|].
    apply split_is_gutter_segments.
  - intros a b c d _ _ _ _. apply scenario.
  - intros wd a b c d Hw Ea Eb Ec Ed Fa Fb Fc.
    apply whole_width_gaps in Hw. unfold scenario_gaps in Hw.
    apply andb_true_iff in Hw as [Hw H3]. apply andb_true_iff in Hw as [H1 H2].
    apply Qltb_lt in H1, H3. apply Qle_bool_iff in H2.
    apply scenario.
    + now rewrite (fsub_compat Eb Fa).
    + now rewrite (fsub_compat Ec Fb).
    + now rewrite (fsub_compat Ed Fc).
Qed.

Lemma gutter_split_law_witness :
  let t x := mkToken (lit "w") x (x + inject_Z 20) 0 10 in
  split_by_gutter_gap [t 10; t 40; t 200; t 230] min_gap_default
  = [[t 10; t 40]; [t 200; t 230]].
Proof.
  intros t.
  apply (proj2 (proj2 gutter_split_law) 20%Z (t 10) (t 40) (t 200) (t 230));
    try reflexivity. lia.
Defined.

(** ** Python's [sorted] *)

Section SortedPerm.
Variables (A K : Type) (key : A -> K) (lt : K -> K -> bool).

Lemma insert_perm x l : Permutation (insert key lt x l) (x :: l).
Proof.
  induction l as [|z l IH]; simpl; [reflexivity|].
  destruct (lt (key z) (key x)); [|reflexivity].
  rewrite IH. apply perm_swap.
Qed.

Lemma sorted_perm l : Permutation (sorted key lt l) l.
Proof.
  induction l as [|x l IH]; simpl; [reflexivity|].
  rewrite insert_perm. now constructor.
Qed.
End SortedPerm.

Section SortedFacts.
Variables (A : Type) (key : A -> Q).

Lemma insert_sorted x l :
  StronglySorted (key_le key) l -> StronglySorted (key_le key) (insert key Qltb x l).
Proof.
  induction l as [|z l IH]; simpl; intros S.
  - repeat constructor.
  - inversion S as [|? ? S' Hz]; subst.
    destruct (Qltb (key z) (key x)) eqn:E.
    + constructor; [auto|].
      apply (Permutation_Forall (Permutation_sym (insert_perm key Qltb x l))).
      constructor; [|assumption].
      apply Qltb_lt in E. now apply Qlt_le_weak.
    + apply Qltb_ge in E. constructor; [assumption|].
      constructor; [assumption|].
      eapply Forall_impl; [|exact Hz].
      intros b Hb. unfold key_le in *. now apply Qle_trans with (key z).
Qed.

Lemma sorted_sorted l : StronglySorted (key_le key) (sorted key Qltb l).
Proof.
  induction l; simpl; [constructor|now apply insert_sorted].
Qed.

Lemma insert_stable v x l :
  filter (at_key key v) (insert key Qltb x l) = filter (at_key key v) (x :: l).
Proof.
  induction l as [|z l IH]; [reflexivity|].
  cbn [insert]. destruct (Qltb (key z) (key x)) eqn:E; [|reflexivity].
  cbn [filter] in *. rewrite IH.
  destruct (at_key key v z) eqn:Ez, (at_key key v x) eqn:Ex; try reflexivity.
  unfold at_key in *. apply Qeq_bool_iff in Ez, Ex. apply Qltb_lt in E.
  rewrite Ez, Ex in E. now apply Qlt_irrefl in E.
Qed.

(** Stability: the elements of one key keep their encounter order. *)
Lemma sorted_stable v l :
  filter (at_key key v) (sorted key Qltb l) = filter (at_key key v) l.
Proof.
  induction l as [|x l IH]; [reflexivity|].
  cbn [sorted fold_right]. fold (sorted key Qltb l).
  rewrite insert_stable. cbn [filter]. now rewrite IH.
Qed.
End SortedFacts.

(** ** Row grouping and line building *)

Lemma fold_left_snoc A B (g : B -> A) l : forall out,
  fold_left (fun out x => out ++ [g x]) l out = out ++ map g l.
Proof.
  induction l as [|x l IH]; intros out; simpl.
  - now rewrite app_nil_r.
  - now rewrite IH, <- app_assoc.
Qed.

Lemma row_fold_concat y_tol ws : forall rows cur y,
  let '(rows', cur', _) := fold_left (row_step y_tol) ws (rows, cur, y) in
  concat rows' ++ cur' = concat rows ++ cur ++ ws.
Proof.
  induction ws as [|w ws IH]; intros rows cur y; cbn [fold_left].
  - now rewrite app_nil_r.
  - unfold row_step at 2.
    destruct (Qle_bool (Qabs (fsub (w_top w) y)) y_tol).
    + specialize (IH rows (cur ++ [w]) y).
      destruct (fold_left _ ws _) as [[rows' cur'] y'].
      now rewrite IH, <- app_assoc.
    + specialize (IH (rows ++ [cur]) [w] (w_top w)).
      destruct (fold_left _ ws _) as [[rows' cur'] y'].
      now rewrite IH, concat_snoc, <- app_assoc.
Qed.

(** The rows cover the sorted words exactly once, in order. *)
Lemma group_rows_concat ws y_tol : concat (group_rows ws y_tol) = ws.
Proof.
  unfold group_rows. destruct ws as [|w0 ws']; [reflexivity|].
  pose proof (row_fold_concat y_tol (w0 :: ws') [] [] (w_top w0)) as H.
  destruct (fold_left _ (w0 :: ws') _) as [[rows cur] y].
  simpl in H. destruct cur.
  - now rewrite app_nil_r in H.
  - now rewrite concat_snoc.
Qed.

Lemma lines_fold_map (U : Unicode) rows : forall out,
  fold_left lines_step rows out
  = out ++ map line_of_segment
      (flat_map (fun row =>
         split_by_gutter_gap (sorted w_x0 Qltb row) min_gap_default) rows).
Proof.
  induction rows as [|row rows IH]; intros out; simpl.
  - now rewrite app_nil_r.
  - rewrite IH. unfold lines_step. rewrite fold_left_snoc.
    now rewrite map_app, app_assoc.
Qed.

(** Every line is built from one segment of the page, in order. *)
Lemma words_to_lines_segments (U : Unicode) ws y_tol :
  words_to_lines ws y_tol = map line_of_segment (page_segments ws y_tol).
Proof.
  unfold words_to_lines, page_segments. destruct ws as [|w ws]; [reflexivity|].
  now rewrite lines_fold_map.
Qed.

Lemma page_segments_perm ws y_tol :
  Permutation (concat (page_segments ws y_tol)) ws.
Proof.
  unfold page_segments.
  set (rows := group_rows _ y_tol).
  transitivity (concat rows).
  - clear. induction rows as [|row rows IH]; simpl; [reflexivity|].
    rewrite concat_app, split_concat.
    apply Permutation_app; [apply sorted_perm|exact IH].
  - unfold rows. rewrite group_rows_concat. apply sorted_perm.
Qed.

Lemma page_segments_nonempty ws y_tol :
  Forall (fun s => s <> []) (page_segments ws y_tol).
Proof.
  unfold page_segments. apply Forall_flat_map, Forall_forall.
  intros row _. apply split_nonempty.
Qed.

(** ** Column classification *)

Lemma classify_columns_map lines page_width gutter_ratio :
  classify_columns lines page_width gutter_ratio
  = map (fun ln => set_kind ln (column_kind (page_width * gutter_ratio) ln))
      lines.
Proof. unfold classify_columns, classify_step. apply fold_left_snoc. Qed.

Lemma straddles_dec mid ln :
  Qltb (ln_x0 ln) mid && Qltb mid (ln_x1 ln) = true <-> straddles mid ln.
Proof.
  unfold straddles. now rewrite andb_true_iff, !Qltb_lt.
Qed.

Lemma column_kind_law mid ln :
  classified mid ln (set_kind ln (column_kind mid ln)).
Proof.
  unfold classified, column_kind; simpl.
  repeat (split; [reflexivity|]).
  pose proof (straddles_dec mid ln) as S.
  pose proof (Qle_bool_iff (ln_x1 ln) mid) as L.
  destruct (Qltb (ln_x0 ln) mid && Qltb mid (ln_x1 ln));
    destruct (Qle_bool (ln_x1 ln) mid);
    intuition (try discriminate; try congruence).
Qed.

(** C2. Column classification: the classifier returns the lines in the
    order given, each with its box and text unchanged and its kind set to
    Full exactly when the box strictly straddles [mid = width * ratio],
    otherwise to Left when [x1 <= mid] and to Right when not; a line from
    100 to 500 on a page 600 wide is Full. *)
Theorem column_classification :
  (forall lines page_width gutter_ratio,
     Forall2 (classified (page_width * gutter_ratio)) lines
       (classify_columns lines page_width gutter_ratio))
  /\ (forall y text k,
        classify_columns [mkLine y 100 500 text k] 600 gutter_ratio_default
        = [mkLine y 100 500 text Full]).
Proof.
  split.
  - intros lines w r. rewrite classify_columns_map.
    induction lines; simpl; constructor; auto. apply column_kind_law.
  - reflexivity.
Qed.

(** ** Reading order *)

Lemma Kind_eqb_eq a b : Kind_eqb a b = true <-> a = b.
Proof. destruct a, b; simpl; split; congruence. Qed.

Lemma of_kind_kind k lines : Forall (fun ln => ln_kind ln = k) (of_kind k lines).
Proof.
  apply Forall_forall. intros ln H. apply filter_In in H as [_ H].
  now apply Kind_eqb_eq.
Qed.

Lemma sorted_bucket k lines :
  bucket k lines (sorted ln_y Qltb (of_kind k lines)).
Proof.
  repeat split.
  - apply (Permutation_Forall (Permutation_sym (sorted_perm _ _ _))).
    apply of_kind_kind.
  - apply sorted_perm.
  - apply sorted_sorted.
  - intros v. apply sorted_stable.
Qed.

Lemma full_first_app F rest :
  Forall (fun ln => ln_kind ln = Full) F ->
  Forall (fun ln => ln_kind ln <> Full) rest ->
  full_first (F ++ rest).
Proof.
  intros HF HR i j a b Ha Hb Ka Kb.
  destruct (Nat.lt_ge_cases i (length F)) as [Hi|Hi].
  - destruct (Nat.lt_ge_cases j (length F)) as [Hj|Hj]; [|lia].
    rewrite nth_error_app1 in Hb by assumption.
    apply nth_error_In in Hb. rewrite Forall_forall in HF.
    now apply HF in Hb.
  - rewrite nth_error_app2 in Ha by assumption.
    apply nth_error_In in Ha. rewrite Forall_forall in HR.
    now apply HR in Ha.
Qed.

(** C1. Reading order: the sequencer output is the Full bucket, then the
    Left bucket, then the Right bucket; each bucket holds the lines of its
    kind in ascending [y], lines of equal [y] in their encounter order; and
    every Full line precedes every line of another kind, whatever their
    [y]. *)
Theorem reading_order (lines : list Line) :
  exists F L R,
    ordered_lines lines = F ++ L ++ R
    /\ bucket Full lines F /\ bucket Left lines L /\ bucket Right lines R
    /\ full_first (ordered_lines lines).
Proof.
  exists (sorted ln_y Qltb (of_kind Full lines)),
         (sorted ln_y Qltb (of_kind Left lines)),
         (sorted ln_y Qltb (of_kind Right lines)).
  split; [reflexivity|].
  repeat (split; [apply sorted_bucket|]).
  unfold ordered_lines. apply full_first_app.
  - apply sorted_bucket.
  - apply Forall_app; split.
    + eapply Forall_impl; [|apply (sorted_bucket Left lines)].
      simpl. intros ? ->. discriminate.
    + eapply Forall_impl; [|apply (sorted_bucket Right lines)].
      simpl. intros ? ->. discriminate.
Qed.

Lemma buckets_perm lines :
  Forall (fun ln => ln_kind ln <> Single) lines ->
  Permutation (of_kind Full lines ++ of_kind Left lines ++ of_kind Right lines)
    lines.
Proof.
  unfold of_kind. induction 1 as [|ln lines Hk _ IH]; [reflexivity|].
  cbn [filter]. destruct (ln_kind ln); cbn [Kind_eqb]; try congruence.
  - apply perm_skip, IH.
  - cbn [app]. rewrite <- Permutation_middle. apply perm_skip, IH.
  - rewrite app_assoc, <- Permutation_middle, <- app_assoc.
    apply perm_skip, IH.
Qed.

Lemma classify_columns_kinds lines page_width gutter_ratio :
  Forall (fun ln => ln_kind ln <> Single)
    (classify_columns lines page_width gutter_ratio).
Proof.
  rewrite classify_columns_map. apply Forall_map, Forall_forall.
  intros ln _. unfold column_kind; simpl.
  destruct (_ && _); [discriminate|]. destruct (Qle_bool _ _); discriminate.
Qed.

(** After classification no line is left out of the three buckets. *)
Lemma ordered_lines_perm lines page_width gutter_ratio :
  Permutation
    (ordered_lines (classify_columns lines page_width gutter_ratio))
    (classify_columns lines page_width gutter_ratio).
Proof.
  unfold ordered_lines. rewrite !sorted_perm.
  apply buckets_perm, classify_columns_kinds.
Qed.

(** ** The boilerplate filter *)

Lemma filter_fold_keep (U : Unicode) ordered : forall filtered,
  fold_left (filter_step false) ordered filtered
  = filtered ++ filter nonempty (map ln_text ordered).
Proof.
  induction ordered as [|ln ordered IH]; intros filtered; simpl.
  - now rewrite app_nil_r.
  - rewrite IH. unfold filter_step.
    destruct (nonempty (ln_text ln)); simpl; [|reflexivity].
    now rewrite <- app_assoc.
Qed.

(** A word of empty text gives a line of empty text, which the stage drops
    although the flag is off. *)
Lemma filter_off_drops_empty_line :
  let ordered :=
    ordered_lines
      (classify_columns (words_to_lines [mkToken [] 10 20 0 10] 3)
         600 gutter_ratio_default) in
  map ln_text ordered = [[]] /\ filter_lines false ordered = [].
Proof. split; reflexivity. Qed.

Lemma filter_lines_keep (U : Unicode) (ordered : list Line) :
  filter_lines false ordered = filter nonempty (map ln_text ordered).
Proof. unfold filter_lines. now rewrite filter_fold_keep. Qed.

(** With no empty text among the lines, nothing is dropped. *)
Lemma filter_lines_keep_all (U : Unicode) (ordered : list Line) :
  Forall (fun ln => ln_text ln <> []) ordered ->
  filter_lines false ordered = map ln_text ordered.
Proof.
  intros H. rewrite filter_lines_keep.
  induction H as [|ln l Hn _ IH]; [reflexivity|]; simpl.
  destruct (ln_text ln); [congruence|]. simpl. now rewrite IH.
Qed.

(** C7. Filter bypass: with the flag off the stage passes on, in sequencer
    order, the texts of the lines whose text is not empty, and drops no
    other line. *)
Theorem filter_bypass (U : Unicode) (ordered : list Line) :
  filter_lines false ordered = filter nonempty (map ln_text ordered).
Proof. apply filter_lines_keep. Qed.

(** ** The paragraph merger *)

Lemma merge_step_last (U : Unicode) out prev cur :
  merge_step (out ++ [prev]) cur
  = let '(prev2, cur2, did_merge) := merge_hyphenation prev cur in
    if did_merge then out ++ [prev2 ++ cur2]
    else if should_join_with_space prev cur
    then out ++ [rstrip prev ++ lit " " ++ lstrip cur]
    else out ++ [prev; cur].
Proof.
  unfold merge_step, set_last.
  destruct (out ++ [prev]) eqn:E; [now destruct out|].
  rewrite <- E, last_last, removelast_last, <- app_assoc.
  reflexivity.
Qed.

Lemma endswith_hyphen p : endswith (p ++ lit "-") (lit "-") = true.
Proof. unfold endswith. rewrite rev_app_distr. reflexivity. Qed.

(** C5. Hyphenation merge: when the last output line ends with a hyphen and
    the next line starts with a lowercase character, the merger replaces the
    last output line by the two joined without the hyphen and without a
    space, and adds no line; so "...transfor-" and "mation continues..."
    become "...transformation continues...". *)
Theorem hyphenation_merge :
  (forall (U : Unicode) out p c rest,
     islower c = true ->
     merge_step (out ++ [p ++ lit "-"]) (c :: rest) = out ++ [p ++ c :: rest])
  /\ merge_paragraphs [lit "...transfor-"; lit "mation continues..."]
     = [lit "...transformation continues..."].
Proof.
  split; [|reflexivity].
  intros U out p c rest Hc. rewrite merge_step_last.
  unfold merge_hyphenation. rewrite endswith_hyphen, Hc. simpl.
  now rewrite removelast_last.
Qed.

Lemma hyphenation_merge_witness :
  islower 109 = true
  /\ merge_step ([] ++ [lit "...transfor" ++ lit "-"])
       (109%N :: lit "ation continues...")
     = [] ++ [lit "...transfor" ++ 109%N :: lit "ation continues..."].
Proof.
  split; [reflexivity|].
  apply (proj1 hyphenation_merge basic_latin [] (lit "...transfor") 109%N
           (lit "ation continues...")).
  reflexivity.
Defined.

(** ** Pages *)

(** C8. Empty page: a page whose words are none is reconstructed without
    failure into the record of its own number, width and height, with empty
    text and a line count of 0. *)
Theorem empty_page (U : Unicode) (crop : Page -> BBox -> option Page)
    (page p : Page) (y_tol : Q) (drop_headers_footers : bool)
    (crop_top crop_bottom : Q) :
  cropped_page crop page crop_top crop_bottom = Some p ->
  words p = [] ->
  reconstruct_page_text crop page y_tol drop_headers_footers
    crop_top crop_bottom
  = Some {| r_page_number := page_number page;
            r_width := width page;
            r_height := height page;
            r_text := [];
            r_line_count := 0 |}.
Proof.
  intros Hp Hw. unfold reconstruct_page_text, page_paragraphs.
  rewrite Hp, Hw. reflexivity.
Qed.

Lemma empty_page_witness :
  reconstruct_page_text strict_crop (mkPage 3 600 800 []) 3 true 0 0
  = Some (mkRecord 3 600 800 [] 0).
Proof.
  apply (@empty_page basic_latin strict_crop (mkPage 3 600 800 [])
           (mkPage 3 600 800 [])); reflexivity.
Defined.

(** ** Whitespace *)

Section Whitespace.
Context {U : Unicode}.

Lemma lstrip_suffix s : exists pre, s = pre ++ lstrip s.
Proof.
  induction s as [|c s [pre IH]]; simpl; [now exists []|].
  destruct (isspace c); [|now exists []].
  exists (c :: pre). simpl. now rewrite <- IH.
Qed.

Lemma lstrip_first_ok s : first_ok U (lstrip s).
Proof.
  induction s as [|c s IH]; simpl; [discriminate|].
  destruct (isspace c) eqn:E; [assumption|].
  intros c' t Ec. now injection Ec as <- _.
Qed.

Lemma lstrip_id s : first_ok U s -> lstrip s = s.
Proof.
  destruct s as [|c s]; [reflexivity|]. intros H. simpl.
  now rewrite (H c s eq_refl).
Qed.

Lemma last_ok_rev s : last_ok U s <-> first_ok U (rev s).
Proof.
  split; intros H.
  - intros c t E. apply (H (rev t) c).
    rewrite <- (rev_involutive s), E. reflexivity.
  - intros t c E. apply (H c (rev t)). subst s.
    now rewrite rev_app_distr.
Qed.

Lemma rstrip_last_ok s : last_ok U (rstrip s).
Proof.
  apply last_ok_rev. unfold rstrip. rewrite rev_involutive.
  apply lstrip_first_ok.
Qed.

Lemma rstrip_id s : last_ok U s -> rstrip s = s.
Proof.
  intros H. unfold rstrip. apply last_ok_rev in H.
  now rewrite lstrip_id, rev_involutive.
Qed.

Lemma rstrip_prefix s : exists post, s = rstrip s ++ post.
Proof.
  unfold rstrip. destruct (lstrip_suffix (rev s)) as [pre E].
  exists (rev pre). rewrite <- rev_app_distr, <- E.
  now rewrite rev_involutive.
Qed.

Lemma first_ok_prefix a b : first_ok U (a ++ b) -> first_ok U a.
Proof. intros H c t E. apply (H c (t ++ b)). now subst a. Qed.

Lemma first_ok_app a b : a <> [] -> first_ok U a -> first_ok U (a ++ b).
Proof.
  intros Ha H c t E. destruct a as [|x a]; [congruence|].
  injection E as <- _. now apply (H x a).
Qed.

Lemma last_ok_app a b : b <> [] -> last_ok U b -> last_ok U (a ++ b).
Proof.
  intros Hb H t c E. destruct (exists_last Hb) as (b' & y & ->).
  rewrite app_assoc in E. apply app_inj_tail in E as [_ <-].
  now apply (H b' y).
Qed.

Lemma strip_trimmed s : first_ok U (strip s) /\ last_ok U (strip s).
Proof.
  unfold strip. split; [|apply rstrip_last_ok].
  destruct (rstrip_prefix (lstrip s)) as [post E].
  apply first_ok_prefix with post. rewrite <- E. apply lstrip_first_ok.
Qed.

Lemma strip_id s : first_ok U s -> last_ok U s -> strip s = s.
Proof.
  intros H1 H2. unfold strip. now rewrite lstrip_id, rstrip_id.
Qed.

Lemma strip_incl s : incl (strip s) s.
Proof.
  unfold strip. intros c Hc.
  destruct (rstrip_prefix (lstrip s)) as [post E].
  destruct (lstrip_suffix s) as [pre E'].
  rewrite E', E. apply in_or_app. right. apply in_or_app. now left.
Qed.

Lemma collapse_space_chars s :
  Forall (fun c => c = 32%N \/ isspace c = false) (collapse_space s).
Proof.
  induction s as [|c s IH]; simpl; [constructor|].
  destruct (isspace c) eqn:E.
  - destruct s as [|d s']; [repeat constructor; now left|].
    destruct (isspace d); [assumption|]. constructor; [now left|assumption].
  - constructor; [now right|assumption].
Qed.

(** A normalised text is empty or tidy. *)
Lemma norm_space_tidy s : norm_space s <> [] -> tidy U (norm_space s).
Proof.
  intros Hn. unfold norm_space in *. split; [assumption|].
  split; [apply strip_trimmed|]. split; [apply strip_trimmed|].
  apply Forall_forall. intros c Hc. apply strip_incl in Hc.
  revert c Hc. apply Forall_forall, collapse_space_chars.
Qed.
End Whitespace.

(** ** Paragraphs are tidy *)

Section Tidy.
Context {U : Unicode}.

Lemma tidy_app a b :
  first_ok U a -> Forall (fun c => c = 32%N \/ isspace c = false) a ->
  tidy U b -> tidy U (a ++ b).
Proof.
  intros Ha Hca (Hb & Hfb & Hlb & Hcb). repeat split.
  - destruct a; [assumption|discriminate].
  - destruct a as [|x a]; [assumption|].
    apply first_ok_app; [discriminate|assumption].
  - now apply last_ok_app.
  - apply Forall_app. now split.
Qed.

Lemma tidy_removelast s :
  tidy U s ->
  first_ok U (removelast s)
  /\ Forall (fun c => c = 32%N \/ isspace c = false) (removelast s).
Proof.
  intros (Hn & Hf & _ & Hc).
  rewrite (app_removelast_last 0%N Hn) in Hf, Hc. split.
  - eapply first_ok_prefix; eassumption.
  - now apply Forall_app in Hc.
Qed.

Lemma merge_step_tidy out cur :
  Forall (tidy U) out -> tidy U cur -> Forall (tidy U) (merge_step out cur).
Proof.
  intros Hout Hcur.
  destruct out as [|o out'] eqn:E; [simpl; constructor; [assumption|constructor]|].
  rewrite <- E in *. assert (Hne : out <> []) by (subst; discriminate).
  clear E o out'. destruct (exists_last Hne) as (init & prev & ->).
  apply Forall_snoc in Hout as [Hinit Hprev].
  rewrite merge_step_last. unfold merge_hyphenation.
  destruct (_ && _ && _).
  - apply Forall_snoc; split; [assumption|].
    apply tidy_app; [apply tidy_removelast| apply tidy_removelast|];
      assumption.
  - destruct (should_join_with_space prev cur).
    + apply Forall_snoc; split; [assumption|].
      destruct Hprev as (Hp & Hfp & Hlp & Hcp).
      rewrite (rstrip_id Hlp).
      destruct Hcur as (Hc' & Hfc & Hlc & Hcc).
      rewrite (lstrip_id Hfc). rewrite app_assoc.
      apply tidy_app.
      * apply first_ok_app; assumption.
      * apply Forall_app; split; [assumption|]. repeat constructor.
      * repeat split; assumption.
    + change [prev; cur] with ([prev] ++ [cur]). rewrite app_assoc.
      repeat (apply Forall_snoc; split); assumption.
Qed.

Lemma merge_fold_tidy filtered : forall out,
  Forall (tidy U) out -> Forall (tidy U) filtered ->
  Forall (tidy U) (fold_left merge_step filtered out).
Proof.
  induction filtered as [|cur filtered IH]; intros out Ho Hf; simpl.
  - assumption.
  - inversion Hf; subst. apply IH; [now apply merge_step_tidy|assumption].
Qed.

Lemma filter_fold_tidy drop ordered : forall filtered,
  Forall (tidy U) filtered ->
  Forall (fun ln => exists s, ln_text ln = norm_space s) ordered ->
  Forall (tidy U) (fold_left (filter_step drop) ordered filtered).
Proof.
  induction ordered as [|ln ordered IH]; intros filtered Hf Ho; simpl.
  - assumption.
  - inversion Ho as [|? ? [s Es] Ho']; subst. apply IH; [|assumption].
    unfold filter_step. destruct (ln_text ln) eqn:Et; [assumption|].
    simpl. destruct (drop && _); [assumption|].
    apply Forall_snoc; split; [assumption|].
    rewrite Es. apply norm_space_tidy. congruence.
Qed.

Lemma ordered_lines_incl lines : incl (ordered_lines lines) lines.
Proof.
  intros ln H. unfold ordered_lines in H.
  repeat (apply in_app_or in H as [H|H]);
    apply (Permutation_in _ (sorted_perm _ _ _)) in H;
    now apply filter_In in H.
Qed.

(** The paragraphs of a page are tidy. *)
Lemma page_paragraphs_tidy p y_tol drop :
  Forall (tidy U) (page_paragraphs p y_tol drop).
Proof.
  unfold page_paragraphs, merge_paragraphs, filter_lines.
  apply merge_fold_tidy; [constructor|].
  apply filter_fold_tidy; [constructor|].
  apply Forall_forall. intros ln H. apply ordered_lines_incl in H.
  rewrite classify_columns_map, words_to_lines_segments in H.
  apply in_map_iff in H as (ln' & <- & H).
  apply in_map_iff in H as (seg & <- & _).
  simpl. eauto.
Qed.

Lemma join_trimmed paras :
  Forall (tidy U) paras ->
  first_ok U (join nl paras) /\ last_ok U (join nl paras).
Proof.
  induction 1 as [|p ps (Hn & Hf & Hl & _) Hps [IH1 IH2]].
  - split; intros ? ? E; [discriminate|now destruct t].
  - destruct ps as [|q ps]; [now split|].
    change (join nl (p :: q :: ps)) with (p ++ nl ++ join nl (q :: ps)).
    split; [now apply first_ok_app|].
    rewrite app_assoc. apply last_ok_app; [|assumption].
    inversion Hps as [|? ? (Hq & _) _]; subst.
    simpl. destruct ps; [assumption|]. now destruct q.
Qed.

Lemma split_nl_app p : forall rest cur,
  ~ In 10%N p -> split_nl (p ++ rest) cur = split_nl rest (cur ++ p).
Proof.
  induction p as [|c p IH]; intros rest cur H; simpl.
  - now rewrite app_nil_r.
  - destruct (N.eqb_spec c 10) as [->|_]; [exfalso; apply H; now left|].
    rewrite IH; [now rewrite <- app_assoc|].
    intros Hin. apply H. now right.
Qed.

Lemma split_nl_join ps : forall p cur,
  Forall (fun s => ~ In 10%N s) (p :: ps) ->
  split_nl (join nl (p :: ps)) cur = (cur ++ p) :: ps.
Proof.
  induction ps as [|q ps IH]; intros p cur H; inversion H; subst.
  - cbn [join]. rewrite <- (app_nil_r p) at 1.
    now rewrite split_nl_app.
  - change (join nl (p :: q :: ps)) with (p ++ nl ++ join nl (q :: ps)).
    rewrite split_nl_app by assumption. cbn [nl app split_nl N.eqb].
    rewrite Pos.eqb_refl. now rewrite IH.
Qed.

Lemma tidy_no_newline s : isspace 10 = true -> tidy U s -> ~ In 10%N s.
Proof.
  intros Hnl (_ & _ & _ & Hc) Hin. rewrite Forall_forall in Hc.
  destruct (Hc _ Hin); congruence.
Qed.

Lemma blocks_join paras :
  isspace 10 = true -> Forall (tidy U) paras ->
  blocks (join nl paras) = paras.
Proof.
  intros Hnl H. destruct paras as [|p ps]; [reflexivity|].
  assert (Hj : join nl (p :: ps) <> []).
  { inversion H as [|? ? (Hp & _) _]; subst.
    destruct ps; simpl; [assumption|]. now destruct p. }
  unfold blocks. destruct (join nl (p :: ps)) eqn:E; [congruence|].
  rewrite <- E, split_nl_join; [reflexivity|].
  eapply Forall_impl; [|exact H]. intros x. now apply tidy_no_newline.
Qed.
End Tidy.

(** C10. Line count: the record of a page counts the paragraphs left after
    filtering and merging, its text is exactly their newline-join, and (the
    newline being whitespace) they are the newline-separated blocks of the
    text; the count is not the number of lines built from the words: two
    lines merged into one paragraph count as 1. *)
Theorem line_count_semantics :
  (forall (U : Unicode) (crop : Page -> BBox -> option Page) page p
          y_tol drop_headers_footers crop_top crop_bottom,
     cropped_page crop page crop_top crop_bottom = Some p ->
     exists r,
       reconstruct_page_text crop page y_tol drop_headers_footers
         crop_top crop_bottom = Some r
       /\ r_line_count r = length (page_paragraphs p y_tol drop_headers_footers)
       /\ r_text r = join nl (page_paragraphs p y_tol drop_headers_footers)
       /\ (isspace 10 = true ->
           blocks (r_text r) = page_paragraphs p y_tol drop_headers_footers))
  /\ (let page :=
        mkPage 1 600 800
          [mkToken (lit "Hello") 10 40 0 10; mkToken (lit "again") 10 40 20 30]
      in
      exists r,
        reconstruct_page_text strict_crop page 3 true 0 0 = Some r
        /\ r_line_count r = 1%nat
        /\ length (words_to_lines (words page) 3) = 2%nat).
Proof.
  split.
  - intros U crop page p y_tol drop ct cb Hp.
    unfold reconstruct_page_text. rewrite Hp.
    eexists. split; [reflexivity|]. cbn [r_line_count r_text].
    pose proof (@page_paragraphs_tidy U p y_tol drop) as T.
    destruct (join_trimmed T) as [J1 J2].
    rewrite (strip_id J1 J2).
    repeat split. intros Hnl. now apply blocks_join.
  - eexists. split; [reflexivity|]. split; reflexivity.
Qed.

Lemma line_count_semantics_witness :
  let page :=
    mkPage 1 600 800
      [mkToken (lit "Hello") 10 40 0 10; mkToken (lit "again") 10 40 20 30] in
  exists r,
    reconstruct_page_text strict_crop page 3 true 0 0 = Some r
    /\ r_line_count r = length (page_paragraphs page 3 true)
    /\ r_text r = join nl (page_paragraphs page 3 true)
    /\ (isspace 10 = true -> blocks (r_text r) = page_paragraphs page 3 true).
Proof.
  intros page.
  apply (proj1 line_count_semantics basic_latin strict_crop page page).
  reflexivity.
Defined.

(** ** The document loop *)

Section Loop.
Context {U : Unicode}.
Variable crop : Page -> BBox -> option Page.
Variables (y_tol : Q) (drop : bool) (crop_top crop_bottom : Q).

Lemma reconstruct_total page :
  cropped_page crop page crop_top crop_bottom <> None ->
  exists r,
    reconstruct_page_text crop page y_tol drop crop_top crop_bottom = Some r.
Proof.
  intros H. unfold reconstruct_page_text.
  destruct (cropped_page crop page crop_top crop_bottom); [eauto|congruence].
Qed.

Lemma page_loop_stops before bad rest : forall written texts,
  Forall (fun pg => cropped_page crop pg crop_top crop_bottom <> None)
    before ->
  cropped_page crop bad crop_top crop_bottom = None ->
  exists recs,
    Forall2 (fun pg r =>
      reconstruct_page_text crop pg y_tol drop crop_top crop_bottom = Some r)
      before recs
    /\ page_loop crop (before ++ bad :: rest) y_tol drop crop_top crop_bottom
         written texts
       = (written ++ recs, None).
Proof.
  induction before as [|pg before IH]; intros written texts Hb Hbad.
  - exists []. split; [constructor|]. simpl.
    unfold reconstruct_page_text. now rewrite Hbad, app_nil_r.
  - inversion Hb as [|? ? Hpg Hb']; subst.
    destruct (reconstruct_total pg Hpg) as [r Hr].
    destruct (IH (written ++ [r]) (texts ++ [page_block r]) Hb' Hbad)
      as (recs & HF & HL).
    exists (r :: recs). split; [now constructor|].
    simpl. rewrite Hr, HL. now rewrite <- app_assoc.
Qed.
End Loop.

(** A crop of 150 fits the first page (800 high) and not the second (100
    high): the record of the first page is written before the extractor
    raises. *)
Lemma crop_error_after_first_page :
  let pdf := [mkPage 1 600 800 []; mkPage 2 600 100 []] in
  invalid_crop (mkPage 2 600 100 []) 150 0
  /\ extract_pdf strict_crop pdf None 3 true 150 0 (mkFiles None None)
     = (mkFiles (Some [mkRecord 1 600 800 [] 0]) None, Raised).
Proof.
  split; [|reflexivity]. unfold invalid_crop. simpl. right. right. lra.
Qed.

(** C9. Configuration errors: a tolerance on the command line that is not
    a number is rejected when the arguments are converted, before the
    extractor is called, so no file is opened and no page processed.  A crop
    is not checked before the page loop: the extractor raises at the first
    page whose crop the token source rejects, having written the records of
    the pages before it and no text file; when that is the first page read,
    no record is written. *)
Theorem crop_error_at_first_rejected_page :
  (forall (U : Unicode) (crop : Page -> BBox -> option Page)
          pdf max_pages y_tol drop_headers_footers crop_top crop_bottom fs
          before bad rest,
     pages_read pdf max_pages = before ++ bad :: rest ->
     Forall (fun pg => cropped_page crop pg crop_top crop_bottom <> None)
       before ->
     cropped_page crop bad crop_top crop_bottom = None ->
     exists recs,
       Forall2 (fun pg r =>
         reconstruct_page_text crop pg y_tol drop_headers_footers
           crop_top crop_bottom = Some r) before recs
       /\ extract_pdf crop pdf max_pages y_tol drop_headers_footers
            crop_top crop_bottom fs
          = (mkFiles (Some recs) (txt_file fs), Raised))
  /\ (forall (U : Unicode) (float : str -> option Q) (int : str -> option Z)
             (crop : Page -> BBox -> option Page) args pdf fs s,
        a_y_tol args = Some s -> float s = None ->
        main float int crop args pdf fs = (fs, Raised)).
Proof.
  split.
  - intros U crop pdf max_pages y_tol drop ct cb fs before bad rest Hp Hb Hbad.
    destruct (@page_loop_stops U crop y_tol drop ct cb before bad rest [] [] Hb Hbad)
      as (recs & HF & HL).
    exists recs. split; [assumption|].
    unfold extract_pdf. now rewrite Hp, HL.
  - intros U float int crop args pdf fs s Hs Hf. unfold main.
    rewrite Hs. cbn [converted]. rewrite Hf.
    now destruct (converted _ None (a_max_pages args)).
Qed.

Lemma crop_error_at_first_rejected_page_witness :
  (exists recs,
     Forall2 (fun pg r =>
       reconstruct_page_text strict_crop pg 3 true 150 0 = Some r)
       [mkPage 1 600 800 []] recs
     /\ extract_pdf strict_crop [mkPage 1 600 800 []; mkPage 2 600 100 []]
          None 3 true 150 0 (mkFiles None None)
        = (mkFiles (Some recs) None, Raised))
  /\ main (fun s => option_map inject_Z (whole s)) whole strict_crop
       (mkArgs None (Some (lit "abc")) false None None)
       [mkPage 1 600 800 []] (mkFiles None None)
     = (mkFiles None None, Raised).
Proof.
  split.
  - apply (proj1 crop_error_at_first_rejected_page basic_latin strict_crop
             [mkPage 1 600 800 []; mkPage 2 600 100 []] None 3 true 150 0
             (mkFiles None None) [mkPage 1 600 800 []] (mkPage 2 600 100 []) []).
    + reflexivity.
    + repeat constructor. discriminate.
    + reflexivity.
  - apply (proj2 crop_error_at_first_rejected_page basic_latin
             (fun s => option_map inject_Z (whole s)) whole strict_crop
             (mkArgs None (Some (lit "abc")) false None None)
             [mkPage 1 600 800 []] (mkFiles None None) (lit "abc"));
      reflexivity.
Defined.

(** ** The matcher decides the language of its pattern *)

Lemma last_of_nil p : last_of p [] = p.
Proof. reflexivity. Qed.

Lemma last_of_app p w1 w2 : last_of p (w1 ++ w2) = last_of (last_of p w1) w2.
Proof.
  unfold last_of. rewrite rev_app_distr.
  destruct (rev w2) as [|c t]; [reflexivity|reflexivity].
Qed.

Section Matcher.
Context {U : Unicode}.

Lemma star_loop_sound a k
  (IHa : forall p s k', rmatch a p s k' = true -> accepts a p s k') n :
  forall p s, star_loop (rmatch a) k n p s = true -> accepts (Star a) p s k.
Proof.
  induction n as [|n IHn]; intros p s H; simpl in H;
    apply orb_true_iff in H as [H|H]; try discriminate;
    try (exists [], s; repeat split; [constructor|assumption]).
  apply IHa in H as (w1 & rest1 & -> & Ha & Hk).
  apply andb_true_iff in Hk as [Hlen Hk]. apply Nat.ltb_lt in Hlen.
  apply IHn in Hk as (w2 & rest & -> & Hs & Hk).
  exists (w1 ++ w2), rest. split; [now rewrite app_assoc|].
  split; [|now rewrite last_of_app].
  constructor; try assumption.
  intros ->. simpl in Hlen. lia.
Qed.

Lemma star_loop_complete a k
  (IHa : forall p s k', accepts a p s k' -> rmatch a p s k' = true)
  p w rest :
  Matches (Star a) p w rest -> k (last_of p w) rest = true ->
  forall n, (length (w ++ rest) <= n)%nat ->
  star_loop (rmatch a) k n p (w ++ rest) = true.
Proof.
  intros H. remember (Star a) as r eqn:Er.
  induction H as [| | | | | a' p rest | a' p w1 w2 rest Hw1 Ha _ Hs IHs | | |];
    try discriminate; injection Er as ->; intros Hk n Hn.
  - destruct n; simpl; rewrite last_of_nil in Hk; now rewrite Hk.
  - destruct n as [|n].
    { destruct w1; [congruence|simpl in Hn; lia]. }
    cbn [star_loop]. apply orb_true_iff. right.
    apply IHa. exists w1, (w2 ++ rest).
    split; [now rewrite app_assoc|]. split; [assumption|].
    apply andb_true_iff. split.
    + apply Nat.ltb_lt. rewrite <- app_assoc, (length_app w1).
      destruct w1; [congruence|simpl; lia].
    + apply IHs; [reflexivity|now rewrite <- last_of_app|].
      rewrite <- app_assoc, (length_app w1) in Hn.
      destruct w1; [congruence|simpl in Hn; lia].
Qed.

(** The matcher succeeds exactly on a prefix in the language of the
    pattern after which the continuation succeeds. *)
Theorem rmatch_correct r : forall p s k,
  rmatch r p s k = true <-> accepts r p s k.
Proof.
  induction r as [|f|a IHa b IHb|a IHa b IHb|a IHa| | |];
    intros p s k; cbn [rmatch].
  - split.
    + intros H. exists [], s. repeat split; [constructor|assumption].
    + intros (w & rest & -> & Hm & Hk). inversion Hm; subst. assumption.
  - split.
    + destruct s as [|c s']; [discriminate|]. intros H.
      apply andb_true_iff in H as [Hf Hk].
      exists [c], s'. repeat split; [now constructor|assumption].
    + intros (w & rest & -> & Hm & Hk). inversion Hm; subst. simpl.
      apply andb_true_iff. now split.
  - rewrite IHa. split.
    + intros (w1 & rest1 & -> & Ha & Hb).
      apply IHb in Hb as (w2 & rest & -> & Hb & Hk).
      exists (w1 ++ w2), rest. split; [now rewrite app_assoc|].
      split; [now constructor|now rewrite last_of_app].
    + intros (w & rest & -> & Hm & Hk). inversion Hm; subst.
      exists w1, (w2 ++ rest). split; [now rewrite app_assoc|].
      split; [assumption|]. apply IHb. exists w2, rest.
      split; [reflexivity|]. split; [assumption|].
      now rewrite <- last_of_app.
  - rewrite orb_true_iff, IHa, IHb. split.
    + intros [(w & rest & -> & Hm & Hk)|(w & rest & -> & Hm & Hk)];
        exists w, rest; repeat split; try assumption;
        [now apply M_AltL|now apply M_AltR].
    + intros (w & rest & -> & Hm & Hk). inversion Hm; subst;
        [left|right]; exists w, rest; repeat split; assumption.
  - split.
    + apply star_loop_sound. intros; now apply IHa.
    + intros (w & rest & -> & Hm & Hk).
      apply star_loop_complete; auto. intros; now apply IHa.
  - split.
    + destruct p; [discriminate|]. intros H.
      exists [], s. repeat split; [constructor|assumption].
    + intros (w & rest & -> & Hm & Hk). inversion Hm; subst. assumption.
  - rewrite andb_true_iff. split.
    + intros [He Hk]. exists [], s. repeat split; [now constructor|assumption].
    + intros (w & rest & -> & Hm & Hk). inversion Hm; subst. now split.
  - rewrite andb_true_iff. split.
    + intros [He Hk]. exists [], s. repeat split; [now constructor|assumption].
    + intros (w & rest & -> & Hm & Hk). inversion Hm; subst. now split.
Qed.
End Matcher.

(** ** The patterns of the join decision *)

Section Patterns.
Context {U : Unicode}.

Lemma Matches_Seq_inv a b p w rest :
  Matches (Seq a b) p w rest ->
  exists w1 w2, w = w1 ++ w2 /\ Matches a p w1 (w2 ++ rest)
                /\ Matches b (last_of p w1) w2 rest.
Proof. inversion 1; subst; eauto. Qed.

Lemma Matches_Chr_inv f p w rest :
  Matches (Chr f) p w rest -> exists c, w = [c] /\ f c = true.
Proof. inversion 1; subst; eauto. Qed.

Lemma Matches_Ch_inv c p w rest : Matches (Ch c) p w rest -> w = [c].
Proof.
  intros H. apply Matches_Chr_inv in H as (c' & -> & E).
  apply N.eqb_eq in E. now subst.
Qed.

Lemma Matches_Ch c p rest : Matches (Ch c) p [c] rest.
Proof. constructor. apply N.eqb_refl. Qed.

Lemma Matches_Alt_inv a b p w rest :
  Matches (Alt a b) p w rest -> Matches a p w rest \/ Matches b p w rest.
Proof. inversion 1; subst; auto. Qed.

Lemma Matches_Bol_inv p w rest : Matches Bol p w rest -> w = [] /\ p = None.
Proof. inversion 1; subst; auto. Qed.

Lemma Matches_Eol_inv p w rest :
  Matches Eol p w rest -> w = [] /\ at_eol rest = true.
Proof. inversion 1; subst; auto. Qed.

Lemma Matches_Star_Chr_inv f p w rest :
  Matches (Star (Chr f)) p w rest -> Forall (fun c => f c = true) w.
Proof.
  intros H. remember (Star (Chr f)) as r eqn:Er.
  induction H; try discriminate; injection Er as ->; [constructor|].
  apply Forall_app. split; [|auto].
  match goal with H : Matches (Chr f) _ _ _ |- _ =>
    apply Matches_Chr_inv in H as (c & -> & Hc) end.
  now repeat constructor.
Qed.

Lemma Matches_Star_Chr f w : forall p rest,
  Forall (fun c => f c = true) w -> Matches (Star (Chr f)) p w rest.
Proof.
  induction w as [|c w IH]; intros p rest H; [constructor|].
  inversion H; subst. change (c :: w) with ([c] ++ w).
  constructor; [discriminate|now constructor|now apply IH].
Qed.

Lemma Matches_Plus_Chr_inv f p w rest :
  Matches (Plus (Chr f)) p w rest ->
  w <> [] /\ Forall (fun c => f c = true) w.
Proof.
  intros H. apply Matches_Seq_inv in H as (w1 & w2 & -> & H1 & H2).
  apply Matches_Chr_inv in H1 as (c & -> & Hc).
  apply Matches_Star_Chr_inv in H2. split; [discriminate|].
  now constructor.
Qed.

Lemma Matches_Plus_Chr f w p rest :
  w <> [] -> Forall (fun c => f c = true) w ->
  Matches (Plus (Chr f)) p w rest.
Proof.
  intros Hn H. destruct w as [|c w]; [congruence|]. inversion H; subst.
  change (c :: w) with ([c] ++ w).
  constructor; [now constructor|now apply Matches_Star_Chr].
Qed.

Lemma Matches_Str_inv l : forall p w rest,
  Matches (Str l) p w rest -> w = l.
Proof.
  induction l as [|c l IH]; intros p w rest H; simpl in H.
  - now inversion H.
  - apply Matches_Seq_inv in H as (w1 & w2 & -> & H1 & H2).
    apply Matches_Ch_inv in H1 as ->. apply IH in H2 as ->. reflexivity.
Qed.

Lemma Matches_Str l : forall p rest, Matches (Str l) p l rest.
Proof.
  induction l as [|c l IH]; intros p rest; simpl; [constructor|].
  change (c :: l) with ([c] ++ l).
  constructor; [apply Matches_Ch|apply IH].
Qed.

(** [re.match] succeeds exactly when a prefix is in the language. *)
Lemma re_match_iff r s :
  re_match r s = true <-> exists w rest, s = w ++ rest /\ Matches r None w rest.
Proof.
  unfold re_match. rewrite rmatch_correct. unfold accepts.
  split; intros (w & rest & E & H); [destruct H|]; eauto.
Qed.

Lemma marker_matches m p rest :
  is_marker m ->
  Matches (Alt (Ch 8226) (Alt (Ch 45) (Alt (Ch 8211) (Alt (Ch 42)
             (Seq (Plus digit) (Ch 46)))))) p m rest.
Proof.
  intros [->|[->|[->|[->|(ds & Hn & Hd & ->)]]]].
  - apply M_AltL, Matches_Ch.
  - apply M_AltR, M_AltL, Matches_Ch.
  - apply M_AltR, M_AltR, M_AltL, Matches_Ch.
  - apply M_AltR, M_AltR, M_AltR, M_AltL, Matches_Ch.
  - apply M_AltR, M_AltR, M_AltR, M_AltR. constructor.
    + now apply Matches_Plus_Chr.
    + apply Matches_Ch.
Qed.

Lemma matches_marker m p rest :
  Matches (Alt (Ch 8226) (Alt (Ch 45) (Alt (Ch 8211) (Alt (Ch 42)
             (Seq (Plus digit) (Ch 46)))))) p m rest ->
  is_marker m.
Proof.
  intros H. unfold is_marker.
  repeat (apply Matches_Alt_inv in H as [H|H];
          [apply Matches_Ch_inv in H; auto 6|]).
  apply Matches_Seq_inv in H as (ds & w2 & -> & H1 & H2).
  apply Matches_Ch_inv in H2 as ->.
  apply Matches_Plus_Chr_inv in H1 as [Hn Hd].
  right; right; right; right. eauto.
Qed.

Lemma bullet_re_iff s : re_match bullet_re s = true <-> bullet_line s.
Proof.
  rewrite re_match_iff. unfold bullet_re, bullet_line. split.
  - intros (w & rest & -> & H).
    apply Matches_Seq_inv in H as (w0 & w' & -> & H0 & H).
    apply Matches_Bol_inv in H0 as [-> _].
    apply Matches_Seq_inv in H as (m & ws & -> & Hm & Hs).
    apply matches_marker in Hm.
    apply Matches_Plus_Chr_inv in Hs.
    exists m, ws, rest. repeat split; try tauto.
    simpl. now rewrite app_assoc.
  - intros (m & ws & rest & Hm & [Hn Hs] & ->).
    exists (m ++ ws), rest. split; [now rewrite app_assoc|].
    change (m ++ ws) with ([] ++ m ++ ws). constructor; [constructor|].
    constructor; [now apply marker_matches|now apply Matches_Plus_Chr].
Qed.

Lemma caption_re_iff s : re_match caption_re s = true <-> caption_line s.
Proof.
  rewrite re_match_iff. unfold caption_re, caption_line. split.
  - intros (w & rest & -> & H).
    apply Matches_Seq_inv in H as (w0 & w' & -> & H0 & H).
    apply Matches_Bol_inv in H0 as [-> _].
    apply Matches_Seq_inv in H as (word & wa & -> & Hw & H).
    apply Matches_Seq_inv in H as (ws & dd & -> & Hs & Hd).
    apply Matches_Chr_inv in Hd as (d & -> & Hd).
    apply Matches_Plus_Chr_inv in Hs.
    exists word, ws, d, rest. split.
    + repeat (apply Matches_Alt_inv in Hw as [Hw|Hw];
              [apply Matches_Str_inv in Hw; auto|]).
      apply Matches_Str_inv in Hw; auto.
    + repeat split; try tauto. simpl. now rewrite <- !app_assoc.
  - intros (word & ws & d & rest & Hw & [Hn Hs] & Hd & ->).
    exists (word ++ ws ++ [d]), rest. split; [now rewrite <- !app_assoc|].
    change (word ++ ws ++ [d]) with ([] ++ word ++ ws ++ [d]).
    constructor; [constructor|]. constructor.
    + destruct Hw as [-> | [-> | ->]];
        [apply M_AltL|apply M_AltR, M_AltL|apply M_AltR, M_AltR];
        apply Matches_Str.
    + constructor; [now apply Matches_Plus_Chr|now constructor].
Qed.

Lemma at_eol_spaces rest :
  isspace 10 = true -> at_eol rest = true ->
  Forall (fun c => A_Z_space c = true) rest.
Proof.
  intros Hnl H. destruct rest as [|c [|d rest]]; try discriminate.
  - constructor.
  - simpl in H. apply N.eqb_eq in H as ->. repeat constructor.
    unfold A_Z_space. now rewrite Hnl, orb_true_r.
Qed.

Lemma heading_re_iff s :
  isspace 10 = true -> (re_match heading_re s = true <-> heading_line s).
Proof.
  intros Hnl. rewrite re_match_iff. unfold heading_re, heading_line. split.
  - intros (w & rest & -> & H).
    apply Matches_Seq_inv in H as (w0 & w' & -> & H0 & H).
    apply Matches_Bol_inv in H0 as [-> _].
    apply Matches_Seq_inv in H as (? & wa & -> & Hc & H).
    apply Matches_Chr_inv in Hc as (c & -> & Hc).
    apply Matches_Seq_inv in H as (? & wb & -> & H1 & H).
    apply Matches_Chr_inv in H1 as (c1 & -> & H1).
    apply Matches_Seq_inv in H as (? & wc & -> & H2 & H).
    apply Matches_Chr_inv in H2 as (c2 & -> & H2).
    apply Matches_Seq_inv in H as (? & wd & -> & H3 & H).
    apply Matches_Chr_inv in H3 as (c3 & -> & H3).
    apply Matches_Seq_inv in H as (ws & we & -> & Hs & He).
    apply Matches_Eol_inv in He as [-> He].
    apply Matches_Star_Chr_inv in Hs.
    exists c, (c1 :: c2 :: c3 :: ws ++ rest). simpl.
    rewrite app_nil_r. repeat split; try assumption; [lia|].
    repeat constructor; try assumption.
    apply Forall_app. split; [assumption|now apply at_eol_spaces].
  - intros (c & t & -> & Hc & Hlen & Ht).
    destruct t as [|c1 [|c2 [|c3 ws]]]; simpl in Hlen; try lia.
    inversion Ht as [|? ? H1 Ht1]; subst.
    inversion Ht1 as [|? ? H2 Ht2]; subst.
    inversion Ht2 as [|? ? H3 Hs]; subst.
    exists (c :: c1 :: c2 :: c3 :: ws), []. split; [now rewrite app_nil_r|].
    change (c :: c1 :: c2 :: c3 :: ws)
      with ([] ++ [c] ++ [c1] ++ [c2] ++ [c3] ++ ws).
    constructor; [constructor|].
    do 4 (constructor; [now constructor|]).
    rewrite <- (app_nil_r ws).
    constructor; [now apply Matches_Star_Chr|now constructor].
Qed.
End Patterns.

(** ** The join decision *)

Section JoinDecision.
Context {U : Unicode}.

Lemma lstrip_nil_iff s : lstrip s = [] <-> blank s.
Proof.
  unfold blank. induction s as [|c s IH]; simpl.
  - split; [constructor|reflexivity].
  - destruct (isspace c) eqn:E.
    + rewrite IH. split; [now constructor|now inversion 1].
    + split; [discriminate|]. inversion 1; congruence.
Qed.

Lemma rstrip_nil_iff s : rstrip s = [] <-> blank s.
Proof.
  unfold rstrip. split.
  - intros H. apply (f_equal (@rev N)) in H. rewrite rev_involutive in H.
    simpl in H. apply lstrip_nil_iff in H. unfold blank in *.
    apply Forall_rev in H. now rewrite rev_involutive in H.
  - intros H. apply Forall_rev in H. apply lstrip_nil_iff in H.
    now rewrite H.
Qed.

Lemma endswith_char s c :
  endswith s [c] = true <-> exists t, s = t ++ [c].
Proof.
  unfold endswith. simpl. split.
  - destruct (rev s) as [|d r] eqn:E; [discriminate|].
    rewrite andb_true_r. intros H. apply N.eqb_eq in H as <-.
    exists (rev r). apply (f_equal (@rev N)) in E.
    now rewrite rev_involutive in E.
  - intros [t ->]. rewrite rev_app_distr. simpl.
    now rewrite N.eqb_refl.
Qed.

Lemma ends_sentence_iff s :
  endswith s (lit ".") || endswith s (lit "!")
    || endswith s (lit "?") || endswith s (lit ":") = true
  <-> ends_sentence s.
Proof.
  unfold ends_sentence. rewrite !orb_true_iff.
  change (lit ".") with [46%N]. change (lit "!") with [33%N].
  change (lit "?") with [63%N]. change (lit ":") with [58%N].
  rewrite !endswith_char. split.
  - intros [[[[t ->]|[t ->]]|[t ->]]|[t ->]]; eexists _, _; split;
      try reflexivity; auto.
  - intros (t & c & -> & [->|[->|[->| ->]]]); eauto.
Qed.

Lemma hyphen_merge_flag prev nxt :
  snd (merge_hyphenation prev nxt) = true <-> hyphen_merge_applies prev nxt.
Proof.
  unfold merge_hyphenation, hyphen_merge_applies.
  change (lit "-") with [45%N].
  destruct (endswith prev [45%N]) eqn:E; simpl.
  - apply endswith_char in E as [p ->].
    destruct nxt as [|c rest]; simpl.
    + split; [discriminate|]. intros (? & ? & ? & _ & ? & _). discriminate.
    + destruct (islower c) eqn:Ec; simpl.
      * split; [|reflexivity]. intros _. now exists p, c, rest.
      * split; [discriminate|].
        intros (? & ? & ? & _ & E & Hl). injection E as <- _. congruence.
  - split; [discriminate|]. intros (p & ? & ? & -> & _).
    assert (endswith (p ++ [45%N]) [45%N] = true)
      by (apply endswith_char; eauto).
    congruence.
Qed.

Lemma should_join_iff prev nxt :
  isspace 10 = true ->
  (should_join_with_space prev nxt = true <-> ~ do_not_join prev nxt).
Proof.
  intros Hnl. unfold should_join_with_space, do_not_join.
  pose proof (rstrip_nil_iff prev) as B.
  pose proof (bullet_re_iff (lstrip nxt)) as Bu.
  pose proof (heading_re_iff (lstrip nxt) Hnl) as He.
  pose proof (caption_re_iff (lower (lstrip nxt))) as Ca.
  pose proof (ends_sentence_iff (rstrip prev)) as En.
  destruct (rstrip prev) as [|x xs] eqn:Ep; simpl negb; cbv iota.
  - split; [discriminate|]. intros N. exfalso. apply N. left.
    now apply B.
  - assert (NB : ~ blank prev) by (rewrite <- B; discriminate).
    destruct (re_match bullet_re (lstrip nxt));
      [split; [discriminate|]; intros N; exfalso; apply N; tauto|].
    destruct (re_match heading_re (lstrip nxt));
      [split; [discriminate|]; intros N; exfalso; apply N; tauto|].
    destruct (re_match caption_re (lower (lstrip nxt)));
      [split; [discriminate|]; intros N; exfalso; apply N; tauto|].
    destruct (_ || _ || _ || _);
      [split; [discriminate|]; intros N; exfalso; apply N; tauto|].
    split; [|reflexivity]. intros _.
    intros [H|[H|[H|[H|H]]]]; try tauto;
      [apply Bu in H|apply He in H|apply Ca in H|apply En in H];
      discriminate.
Qed.
End JoinDecision.

(** A next line that starts with the marker "-" and no whitespace after it
    is joined to the previous line with a space. *)
Lemma marker_without_space_is_joined :
  starts_with_marker (lit "-foo")
  /\ ~ hyphen_merge_applies (lit "abc") (lit "-foo")
  /\ should_join_with_space (lit "abc") (lit "-foo") = true
  /\ merge_step [lit "abc"] (lit "-foo") = [lit "abc -foo"].
Proof.
  split; [|split; [|split; reflexivity]].
  - exists (lit "-"), (lit "foo"). split; [|reflexivity].
    right. now left.
  - rewrite <- hyphen_merge_flag. discriminate.
Qed.

(** C6. Join decision: when no hyphenation merge applies, the merger joins
    the last output line and the next line with one space unless the last
    line is blank, or the next line (leading whitespace aside) starts with a
    marker followed by whitespace, or is a capital followed by three or more
    capitals or whitespace characters, or starts (case aside) with figure,
    table or box followed by whitespace and a digit, or the last line
    (trailing whitespace aside) ends with one of . ! ? : and then it appends
    the next line as a new output line. *)
Theorem join_decision (U : Unicode) (out : list str) (prev cur : str) :
  isspace 10 = true ->
  ~ hyphen_merge_applies prev cur ->
  (~ do_not_join prev cur ->
     merge_step (out ++ [prev]) cur
     = out ++ [rstrip prev ++ lit " " ++ lstrip cur])
  /\ (do_not_join prev cur ->
        merge_step (out ++ [prev]) cur = out ++ [prev; cur]).
Proof.
  intros Hnl Hh. rewrite merge_step_last.
  rewrite <- hyphen_merge_flag in Hh.
  pose proof (should_join_iff prev cur Hnl) as J.
  unfold merge_hyphenation in *.
  destruct (_ && _ && _); simpl in Hh; [congruence|].
  destruct (should_join_with_space prev cur).
  - split; [reflexivity|]. intros D. exfalso. now apply J.
  - split; [|reflexivity]. intros D. exfalso.
    assert (true = false -> False) by discriminate. tauto.
Qed.

Lemma join_decision_witness :
  (~ do_not_join (lit "abc") (lit "-foo") ->
     merge_step ([] ++ [lit "abc"]) (lit "-foo")
     = [] ++ [rstrip (lit "abc") ++ lit " " ++ lstrip (lit "-foo")])
  /\ (do_not_join (lit "abc") (lit "-foo") ->
        merge_step ([] ++ [lit "abc"]) (lit "-foo")
        = [] ++ [lit "abc"; lit "-foo"]).
Proof.
  apply (@join_decision basic_latin [] (lit "abc") (lit "-foo")).
  - reflexivity.
  - rewrite <- hyphen_merge_flag. discriminate.
Defined.

(** ** Further properties of the text normaliser *)

Lemma Sorted_app_inv A (R : A -> A -> Prop) l1 l2 :
  Sorted R (l1 ++ l2) -> Sorted R l1 /\ Sorted R l2.
Proof.
  induction l1 as [|a l1 IH]; simpl; intros H; [split; [constructor|assumption]|].
  inversion H as [|? ? S Hd]; subst. destruct (IH S) as [S1 S2].
  split; [|assumption]. constructor; [assumption|].
  destruct l1; simpl in *; [constructor|]. inversion Hd; now constructor.
Qed.

Lemma Sorted_glue A (R : A -> A -> Prop) l1 a b l2 :
  Sorted R (l1 ++ [a]) -> Sorted R (b :: l2) -> R a b ->
  Sorted R ((l1 ++ [a]) ++ b :: l2).
Proof.
  induction l1 as [|z l1 IH]; simpl; intros S1 S2 HR.
  - constructor; [assumption|now constructor].
  - inversion S1 as [|? ? S1' Hd]; subst. constructor; [now apply IH|].
    destruct l1; simpl in *; inversion Hd; now constructor.
Qed.

Section NormalForm.
Context {U : Unicode}.

Lemma spaced_middle a b c : spaced U (a ++ b ++ c) -> spaced U b.
Proof.
  intros [F S]. apply Forall_app in F as [_ F]. apply Forall_app in F as [F _].
  apply Sorted_app_inv in S as [_ S]. apply Sorted_app_inv in S as [S _].
  now split.
Qed.

Lemma collapse_space_head c s :
  isspace c = false -> collapse_space (c :: s) = c :: collapse_space s.
Proof. intros H. simpl. now rewrite H. Qed.

Lemma collapse_space_spaced s : spaced U (collapse_space s).
Proof.
  split; [apply collapse_space_chars|].
  induction s as [|c s IH]; [constructor|]. cbn [collapse_space].
  destruct (isspace c) eqn:E.
  - destruct s as [|d s']; [repeat constructor|].
    destruct (isspace d) eqn:Ed; [assumption|].
    constructor; [assumption|].
    rewrite (@collapse_space_head d s' Ed). constructor. now right.
  - constructor; [assumption|].
    destruct (collapse_space s); constructor. now left.
Qed.

Lemma collapse_space_id s : spaced U s -> collapse_space s = s.
Proof.
  intros [F S]. induction s as [|c s IH]; [reflexivity|].
  inversion F as [|? ? Hc F']; inversion S as [|? ? S' Hd]; subst.
  cbn [collapse_space]. rewrite (IH F' S').
  destruct (isspace c) eqn:E; [|reflexivity].
  destruct Hc as [->|Hc]; [|congruence].
  destruct s as [|d s']; [reflexivity|].
  inversion Hd as [|? ? [A|A]]; subst; [congruence|]. now rewrite A.
Qed.

Lemma strip_middle s : exists pre post, s = pre ++ strip s ++ post.
Proof.
  unfold strip. destruct (lstrip_suffix s) as [pre E].
  destruct (rstrip_prefix (lstrip s)) as [post E'].
  exists pre, post. now rewrite <- E', <- E.
Qed.

Lemma norm_space_normalised s : normalised U (norm_space s).
Proof.
  unfold norm_space. split; [apply strip_trimmed|].
  split; [apply strip_trimmed|].
  destruct (strip_middle (collapse_space s)) as (pre & post & E).
  apply spaced_middle with pre post. rewrite <- E.
  apply collapse_space_spaced.
Qed.

Lemma normalised_fixed s : normalised U s -> norm_space s = s.
Proof.
  intros (F & L & S). unfold norm_space.
  rewrite (collapse_space_id S). now apply strip_id.
Qed.

Lemma join_solid_normalised texts :
  Forall (solid U) texts -> normalised U (join (lit " ") texts).
Proof.
  assert (solid_norm : forall t, solid U t -> normalised U t).
  { intros t [Hn Ht]. repeat split.
    - intros c t' ->. now inversion Ht.
    - intros t' c ->. apply Forall_app in Ht as [_ Ht]. now inversion Ht.
    - eapply Forall_impl; [|exact Ht]. intros; now right.
    - clear Hn. induction Ht as [|c t' Hc Ht IH]; constructor; [assumption|].
      destruct t'; constructor. now left. }
  induction 1 as [|t ts Ht Hts IH].
  - repeat split; try constructor; intros ? ? E; [discriminate|now destruct t].
  - destruct ts as [|t2 ts]; [now apply solid_norm|].
    change (join (lit " ") (t :: t2 :: ts))
      with (t ++ [32%N] ++ join (lit " ") (t2 :: ts)).
    destruct (solid_norm t Ht) as (Ft & Lt & [Ct St]).
    destruct IH as (Fj & Lj & [Cj Sj]). destruct Ht as [Hn Hs].
    assert (Hj : join (lit " ") (t2 :: ts) <> []).
    { inversion Hts as [|? ? [Hn2 _] _]; subst. simpl.
      destruct ts; [assumption|]. now destruct t2. }
    repeat split.
    + now apply first_ok_app.
    + rewrite app_assoc. now apply last_ok_app.
    + apply Forall_app; split; [assumption|]. constructor; [now left|assumption].
    + destruct (exists_last Hn) as (t' & z & ->).
      apply Forall_app in Hs as [_ Hz]. inversion Hz as [|? ? Hz' _]; subst.
      apply Sorted_glue; [assumption| |now left].
      destruct (join (lit " ") (t2 :: ts)) as [|f j] eqn:Ej; [congruence|].
      constructor; [assumption|]. constructor. right. now apply (Fj f j).
Qed.
End NormalForm.

(** X1. Normalising twice is normalising once. *)
Theorem norm_space_idempotent (U : Unicode) (s : str) :
  norm_space (norm_space s) = norm_space s.
Proof. apply normalised_fixed, norm_space_normalised. Qed.

(** X2. The strings [norm_space] leaves unchanged are exactly those that
    neither start nor end with whitespace and whose whitespace is single
    U+0020 characters. *)
Theorem norm_space_fixed_points (U : Unicode) (s : str) :
  norm_space s = s <-> normalised U s.
Proof.
  split; [intros <-; apply norm_space_normalised|apply normalised_fixed].
Qed.

(** ** Further properties of the line builder *)

(** X3. When every word of a segment has some text and no whitespace in it,
    the text of the line is the words joined by single spaces. *)
Theorem line_text_joins_words (U : Unicode) (seg : list Token) :
  Forall (fun w => solid U (w_text w)) seg ->
  ln_text (line_of_segment seg) = join (lit " ") (map w_text seg).
Proof.
  intros H. cbn [line_of_segment ln_text]. apply normalised_fixed.
  apply join_solid_normalised. now apply Forall_map.
Qed.

Lemma line_text_joins_words_witness :
  ln_text (line_of_segment
             [mkToken (lit "Hello") 10 40 0 10; mkToken (lit "world") 45 70 0 10])
  = join (lit " ") [lit "Hello"; lit "world"].
Proof.
  apply (@line_text_joins_words basic_latin
           [mkToken (lit "Hello") 10 40 0 10; mkToken (lit "world") 45 70 0 10]).
  repeat constructor; discriminate.
Defined.

Lemma py_min_fold l : forall v,
  let m := fold_left (fun m x => if Qltb x m then x else m) l v in
  (m <= v)%Q /\ Forall (fun x => (m <= x)%Q) l /\ In m (v :: l).
Proof.
  induction l as [|x l IH]; intros v; cbn [fold_left].
  - split; [apply Qle_refl|]. split; [constructor|now left].
  - destruct (Qltb x v) eqn:E.
    + apply Qltb_lt in E. destruct (IH x) as (H1 & H2 & H3).
      split; [apply Qle_trans with x; [assumption|now apply Qlt_le_weak]|].
      split; [now constructor|]. right. exact H3.
    + apply Qltb_ge in E. destruct (IH v) as (H1 & H2 & H3).
      split; [assumption|]. split.
      * constructor; [now apply Qle_trans with v|assumption].
      * destruct H3 as [H3|H3]; [now left|right; now right].
Qed.

Lemma py_max_fold l : forall v,
  let m := fold_left (fun m x => if Qltb m x then x else m) l v in
  (v <= m)%Q /\ Forall (fun x => (x <= m)%Q) l /\ In m (v :: l).
Proof.
  induction l as [|x l IH]; intros v; cbn [fold_left].
  - split; [apply Qle_refl|]. split; [constructor|now left].
  - destruct (Qltb v x) eqn:E.
    + apply Qltb_lt in E. destruct (IH x) as (H1 & H2 & H3).
      split; [apply Qle_trans with x; [now apply Qlt_le_weak|assumption]|].
      split; [now constructor|]. right. exact H3.
    + apply Qltb_ge in E. destruct (IH v) as (H1 & H2 & H3).
      split; [assumption|]. split.
      * constructor; [now apply Qle_trans with v|assumption].
      * destruct H3 as [H3|H3]; [now left|right; now right].
Qed.

Lemma py_min_least l : l <> [] ->
  Forall (fun x => (py_min l <= x)%Q) l /\ In (py_min l) l.
Proof.
  destruct l as [|v l]; [congruence|]. intros _. unfold py_min.
  destruct (py_min_fold l v) as (H1 & H2 & H3).
  split; [now constructor|assumption].
Qed.

Lemma py_max_greatest l : l <> [] ->
  Forall (fun x => (x <= py_max l)%Q) l /\ In (py_max l) l.
Proof.
  destruct l as [|v l]; [congruence|]. intros _. unfold py_max.
  destruct (py_max_fold l v) as (H1 & H2 & H3).
  split; [now constructor|assumption].
Qed.

(** X4. The box of a line encloses every word of its segment, and each of
    its three coordinates is that of some word of the segment. *)
Theorem line_box_encloses_words (U : Unicode) (seg : list Token) :
  seg <> [] ->
  Forall (fun w => (ln_x0 (line_of_segment seg) <= w_x0 w)%Q
                   /\ (w_x1 w <= ln_x1 (line_of_segment seg))%Q
                   /\ (ln_y (line_of_segment seg) <= w_top w)%Q) seg
  /\ In (ln_x0 (line_of_segment seg)) (map w_x0 seg)
  /\ In (ln_x1 (line_of_segment seg)) (map w_x1 seg)
  /\ In (ln_y (line_of_segment seg)) (map w_top seg).
Proof.
  intros Hn. cbn [line_of_segment ln_x0 ln_x1 ln_y].
  assert (M : forall f : Token -> Q, map f seg <> [])
    by (intros f; destruct seg; [congruence|discriminate]).
  destruct (py_min_least (M w_x0)) as [A1 A2].
  destruct (py_max_greatest (M w_x1)) as [B1 B2].
  destruct (py_min_least (M w_top)) as [C1 C2].
  split; [|auto]. rewrite Forall_map in A1, B1, C1.
  rewrite Forall_forall in *. intros w Hw. auto.
Qed.

Lemma line_box_encloses_words_witness :
  let seg := [mkToken (lit "a") 10 40 2 10; mkToken (lit "b") 45 70 0 10] in
  Forall (fun w => (ln_x0 (line_of_segment seg) <= w_x0 w)%Q
                   /\ (w_x1 w <= ln_x1 (line_of_segment seg))%Q
                   /\ (ln_y (line_of_segment seg) <= w_top w)%Q) seg
  /\ In (ln_x0 (line_of_segment seg)) (map w_x0 seg)
  /\ In (ln_x1 (line_of_segment seg)) (map w_x1 seg)
  /\ In (ln_y (line_of_segment seg)) (map w_top seg).
Proof.
  intros seg. apply (@line_box_encloses_words basic_latin seg). discriminate.
Defined.

(** ** Token conservation *)

Section Conservation.
Context {U : Unicode}.

Lemma line_of_segment_built seg :
  seg <> [] -> built_from U seg (line_of_segment seg).
Proof.
  intros Hn. unfold built_from. cbn [line_of_segment ln_text ln_x0 ln_x1 ln_y
    ln_kind].
  assert (M : forall f : Token -> Q, map f seg <> [])
    by (intros f; destruct seg; [congruence|discriminate]).
  destruct (py_min_least (M w_x0)) as [A1 A2].
  destruct (py_max_greatest (M w_x1)) as [B1 B2].
  destruct (py_min_least (M w_top)) as [C1 C2].
  rewrite Forall_map in A1, B1, C1.
  repeat split; try assumption.
  rewrite Forall_forall in *. intros w Hw. auto.
Qed.

Lemma lines_built_from_segments ws y_tol :
  Forall2 (built_from U) (page_segments ws y_tol) (words_to_lines ws y_tol).
Proof.
  rewrite words_to_lines_segments.
  pose proof (page_segments_nonempty ws y_tol) as H.
  induction H as [|seg segs Hs _ IH]; simpl; constructor; [|exact IH].
  now apply line_of_segment_built.
Qed.

Lemma split_ws_app t : forall rest cur,
  Forall (fun c => isspace c = false) t ->
  split_ws U (t ++ rest) cur = split_ws U rest (cur ++ t).
Proof.
  induction t as [|c t IH]; intros rest cur H; simpl.
  - now rewrite app_nil_r.
  - inversion H as [|? ? Hc H']; subst. rewrite Hc, IH by assumption.
    now rewrite <- app_assoc.
Qed.

Lemma split_ws_join texts :
  isspace 32 = true -> Forall (solid U) texts ->
  split_ws U (join (lit " ") texts) [] = texts.
Proof.
  intros H32. induction 1 as [|t ts [Hn Ht] Hts IH]; [reflexivity|].
  destruct ts as [|t2 ts].
  - cbn [join]. rewrite <- (app_nil_r t) at 1.
    rewrite split_ws_app by assumption. simpl. now destruct t.
  - change (join (lit " ") (t :: t2 :: ts))
      with (t ++ 32%N :: join (lit " ") (t2 :: ts)).
    rewrite split_ws_app by assumption. cbn [app split_ws].
    rewrite H32, IH. now destruct t.
Qed.

Lemma line_words_of_segment seg :
  isspace 32 = true -> Forall (fun w => solid U (w_text w)) seg ->
  line_words U (line_of_segment seg) = map w_text seg.
Proof.
  intros H32 H. unfold line_words. cbn [line_of_segment ln_text].
  assert (S : Forall (solid U) (map w_text seg)) by now apply Forall_map.
  rewrite (normalised_fixed (join_solid_normalised S)).
  now apply split_ws_join.
Qed.

Lemma line_words_of_segments segs :
  isspace 32 = true ->
  Forall (fun w => solid U (w_text w)) (concat segs) ->
  flat_map (line_words U) (map line_of_segment segs)
  = map w_text (concat segs).
Proof.
  intros H32. induction segs as [|seg segs IH]; intros H; [reflexivity|].
  cbn [concat] in H. apply Forall_app in H as [H1 H2].
  cbn [map flat_map concat].
  now rewrite map_app, IH, line_words_of_segment.
Qed.
End Conservation.

(** C3. Token conservation: the words of a page fall into segments that
    hold every word exactly once (as a multiset), one segment per line, and
    each line is the line of the words of its segment: their texts joined
    and normalised, the least box around them.  When the words have some
    text and no whitespace in it (the blank being whitespace), the words
    read back from the texts of the lines are, as a multiset, the texts of
    the words given.  The segments of a row, put end to end, are the row. *)
Theorem token_conservation (U : Unicode) (ws : list Token) (y_tol : Q) :
  (exists segs,
     Permutation (concat segs) ws
     /\ Forall2 (built_from U) segs (words_to_lines ws y_tol))
  /\ (isspace 32 = true ->
      Forall (fun w => solid U (w_text w)) ws ->
      Permutation (flat_map (line_words U) (words_to_lines ws y_tol))
        (map w_text ws))
  /\ (forall row min_gap, concat (split_by_gutter_gap row min_gap) = row).
Proof.
  split; [|split].
  - exists (page_segments ws y_tol).
    split; [apply page_segments_perm|apply lines_built_from_segments].
  - intros H32 Hs. rewrite words_to_lines_segments.
    pose proof (page_segments_perm ws y_tol) as P.
    rewrite line_words_of_segments; [now apply Permutation_map|assumption|].
    apply (Permutation_Forall (Permutation_sym P)). exact Hs.
  - intros. apply split_concat.
Qed.

Lemma token_conservation_witness :
  let ws := [mkToken (lit "world") 45 70 0 10; mkToken (lit "Hello") 10 40 0 10;
             mkToken (lit "Right") 300 340 1 11] in
  Permutation (flat_map (line_words basic_latin) (words_to_lines ws 3))
    (map w_text ws).
Proof.
  intros ws. apply (proj1 (proj2 (token_conservation basic_latin ws 3))).
  - reflexivity.
  - repeat constructor; discriminate.
Defined.

(** ** Further properties of the row grouper *)

Lemma row_break_head y_tol r a t t' :
  row_break y_tol r (a :: t) -> row_break y_tol r (a :: t').
Proof.
  intros H x u b v E1 E2. injection E2 as <- _. now apply (H x u a t).
Qed.

Lemma row_fold_law y_tol ws : forall rows a t,
  Forall (row_within y_tol) (rows ++ [a :: t]) ->
  Sorted (row_break y_tol) (rows ++ [a :: t]) ->
  let '(rows', cur', _) :=
    fold_left (row_step y_tol) ws (rows, a :: t, w_top a) in
  cur' <> []
  /\ Forall (row_within y_tol) (rows' ++ [cur'])
  /\ Sorted (row_break y_tol) (rows' ++ [cur'])
  /\ (Forall (fun r => r <> []) rows -> Forall (fun r => r <> []) rows').
Proof.
  induction ws as [|w ws IH]; intros rows a t HW HS; cbn [fold_left].
  - repeat split; try assumption; try discriminate. auto.
  - unfold row_step at 2.
    destruct (Qle_bool (Qabs (fsub (w_top w) (w_top a))) y_tol) eqn:E.
    + apply Qle_bool_iff in E. apply (IH rows a (t ++ [w])).
      * apply Forall_snoc in HW as [HW Ha]. apply Forall_snoc.
        split; [assumption|]. simpl in *. apply Forall_snoc. now split.
      * apply Sorted_change_last with (a := a :: t); [assumption|].
        intros z. apply row_break_head.
    + apply Qle_bool_gt in E.
      pose proof (IH (rows ++ [a :: t]) w []) as IH'.
      destruct (fold_left _ ws _) as [[rows' cur'] y'].
      destruct IH' as (H1 & H2 & H3 & H4).
      * apply Forall_snoc. split; [assumption|]. constructor.
      * rewrite <- app_assoc. apply Sorted_snoc; [assumption|].
        intros x u b v E1 E2. injection E1 as <- _. injection E2 as <- _.
        assumption.
      * repeat split; try assumption. intros Hr. apply H4.
        apply Forall_snoc. split; [assumption|discriminate].
Qed.

Lemma fsub_self x : fsub x x = 0%Q.
Proof.
  unfold fsub, round64.
  assert (E : Qred (x - x) = Qred 0)
    by (apply Qred_complete; ring).
  now rewrite E.
Qed.

(** X5. Row grouping: the rows, end to end, are the words in the order
    given; the words of a row lie within the tolerance of its first word; a
    new row starts exactly at a word that is further than the tolerance from
    the first word of the open row, the distance being the float the code
    computes; and with a tolerance that is not negative no row is empty. *)
Theorem row_grouping_law (ws : list Token) (y_tol : Q) :
  concat (group_rows ws y_tol) = ws
  /\ Forall (row_within y_tol) (group_rows ws y_tol)
  /\ Sorted (row_break y_tol) (group_rows ws y_tol)
  /\ ((0 <= y_tol)%Q -> Forall (fun r => r <> []) (group_rows ws y_tol)).
Proof.
  split; [apply group_rows_concat|].
  unfold group_rows. destruct ws as [|w0 ws]; [repeat split; constructor|].
  cbn [fold_left]. set (st := row_step y_tol ([], [], w_top w0) w0).
  assert (Est : st = if Qle_bool (Qabs (fsub (w_top w0) (w_top w0))) y_tol
                     then ([], [w0], w_top w0) else ([[]], [w0], w_top w0))
    by reflexivity.
  clearbody st.
  destruct (Qle_bool (Qabs (fsub (w_top w0) (w_top w0))) y_tol) eqn:E;
    subst st.
  - pose proof (@row_fold_law y_tol ws [] w0 []) as H. cbn [app] in *.
    destruct (fold_left _ ws _) as [[rows cur] y].
    destruct H as (H1 & H2 & H3 & H4); [repeat constructor..|].
    destruct cur as [|c cur]; [congruence|].
    repeat split; try assumption. intros _. apply Forall_snoc.
    split; [apply H4; constructor|discriminate].
  - pose proof (@row_fold_law y_tol ws [[]] w0 []) as H. cbn [app] in *.
    destruct (fold_left _ ws _) as [[rows cur] y].
    destruct H as (H1 & H2 & H3 & H4).
    + repeat constructor.
    + repeat constructor. intros x u b v E1. discriminate.
    + destruct cur as [|c cur]; [congruence|].
      repeat split; try assumption. intros Hy. exfalso.
      apply Qle_bool_gt in E. rewrite fsub_self in E.
      exact (Qlt_not_le _ _ E Hy).
Qed.

Lemma row_grouping_law_witness :
  let ws := [mkToken (lit "a") 10 40 0 10; mkToken (lit "b") 45 70 2 12;
             mkToken (lit "c") 10 40 20 30] in
  Forall (fun r => r <> []) (group_rows ws 3).
Proof.
  intros ws. apply (proj2 (proj2 (proj2 (row_grouping_law ws 3)))).
  vm_compute. discriminate.
Defined.

Lemma row_fold_negative y_tol ws : (y_tol < 0)%Q -> forall rows cur y,
  let '(rows', cur', _) := fold_left (row_step y_tol) ws (rows, cur, y) in
  rows' ++ [cur'] = rows ++ [cur] ++ map (fun w => [w]) ws.
Proof.
  intros Hy. induction ws as [|w ws IH]; intros rows cur y; cbn [fold_left].
  - reflexivity.
  - unfold row_step at 2.
    assert (E : Qle_bool (Qabs (fsub (w_top w) y)) y_tol = false).
    { apply Qle_bool_gt. apply Qlt_le_trans with 0%Q; [assumption|].
      apply Qabs_nonneg. }
    rewrite E. specialize (IH (rows ++ [cur]) [w] (w_top w)).
    destruct (fold_left _ ws _) as [[rows' cur'] y'].
    rewrite IH. now rewrite <- !app_assoc.
Qed.

Lemma group_rows_negative y_tol ws :
  (y_tol < 0)%Q -> ws <> [] ->
  group_rows ws y_tol = [] :: map (fun w => [w]) ws.
Proof.
  intros Hy Hn. unfold group_rows. destruct ws as [|w0 ws]; [congruence|].
  pose proof (@row_fold_negative y_tol (w0 :: ws) Hy [] [] (w_top w0)) as H.
  destruct (fold_left _ (w0 :: ws) _) as [[rows cur] y].
  cbn [app] in H. destruct cur as [|c cur]; [|exact H].
  exfalso. change ([] :: map (fun w => [w]) (w0 :: ws))
    with ([[]] ++ map (fun w : Token => [w]) (w0 :: ws)) in H.
  destruct (@exists_last _ (map (fun w : Token => [w]) (w0 :: ws)))
    as (m & z & Em); [discriminate|].
  assert (Hz : In z (map (fun w : Token => [w]) (w0 :: ws)))
    by (rewrite Em; apply in_or_app; right; now left).
  rewrite Em, app_assoc in H. apply app_inj_tail in H as [_ <-].
  apply in_map_iff in Hz as (? & ? & _). discriminate.
Qed.

Lemma segments_of_singletons l :
  flat_map
    (fun row => split_by_gutter_gap (sorted w_x0 Qltb row) min_gap_default)
    ([] :: map (fun w => [w]) l)
  = map (fun w => [w]) l.
Proof.
  change (flat_map ?f ([] :: ?r)) with (flat_map f r).
  induction l as [|w l IH]; [reflexivity|].
  cbn [map flat_map]. rewrite IH. reflexivity.
Qed.

(** X6. With a negative tolerance every word is a row, a segment and a line
    of its own: the lines are the words one by one, in (top, x0) order. *)
Theorem negative_tolerance_splits_every_word (U : Unicode)
    (ws : list Token) (y_tol : Q) :
  (y_tol < 0)%Q ->
  words_to_lines ws y_tol
  = map (fun w => line_of_segment [w])
      (sorted (fun w => (w_top w, w_x0 w)) pair_ltb ws).
Proof.
  intros Hy. rewrite words_to_lines_segments. unfold page_segments.
  set (sw := sorted _ pair_ltb ws).
  destruct sw as [|w0 sw'] eqn:E; [reflexivity|].
  rewrite group_rows_negative by (assumption || discriminate).
  rewrite segments_of_singletons. apply map_map.
Qed.

Lemma negative_tolerance_splits_every_word_witness :
  words_to_lines
    [mkToken (lit "b") 45 70 0 10; mkToken (lit "a") 10 40 0 10] (-1)
  = map (fun w => line_of_segment [w])
      [mkToken (lit "a") 10 40 0 10; mkToken (lit "b") 45 70 0 10].
Proof.
  apply (@negative_tolerance_splits_every_word basic_latin
           [mkToken (lit "b") 45 70 0 10; mkToken (lit "a") 10 40 0 10] (-1)).
  reflexivity.
Defined.

(** ** Further properties of the gutter splitter *)

Lemma gutter_fold_count min_gap rest : forall segs c' p,
  let '(segs', _) :=
    fold_left (gutter_step min_gap) rest (segs, c' ++ [p]) in
  length segs' = (length segs + big_gaps min_gap (p :: rest))%nat.
Proof.
  induction rest as [|w rest IH]; intros segs c' p; cbn [fold_left].
  - simpl. lia.
  - unfold gutter_step at 2. rewrite last_last. cbn [big_gaps].
    destruct (Qle_bool min_gap (fsub (w_x0 w) (w_x1 p))).
    + specialize (IH (segs ++ [c' ++ [p]]) [] w). cbn [app] in IH.
      destruct (fold_left _ rest _) as [segs' cur'].
      rewrite IH, length_app. simpl. lia.
    + specialize (IH segs (c' ++ [p]) w).
      destruct (fold_left _ rest _) as [segs' cur'].
      rewrite IH. simpl. lia.
Qed.

(** X7. A row that is not empty falls into one segment more than it has
    gaps of [min_gap] or more between neighbouring words, the gap being the
    float the code computes; an empty row has no segment. *)
Theorem segment_count (row : list Token) (min_gap : Q) :
  length (split_by_gutter_gap row min_gap)
  = match row with
    | [] => 0%nat
    | _ :: _ => S (big_gaps min_gap row)
    end.
Proof.
  destruct row as [|w0 rest]; [reflexivity|]. unfold split_by_gutter_gap.
  pose proof (gutter_fold_count min_gap rest [] [] w0) as H. cbn [app] in H.
  destruct (fold_left _ rest _) as [segs cur].
  rewrite length_app, H. simpl. lia.
Qed.

(** ** Further properties of classification and sequencing *)

(** X8. Classification overwrites the kind a line came with: no classified
    line keeps the placeholder, the kind given does not depend on the kind
    found, and classifying again changes nothing. *)
Theorem classification_overwrites_kind
    (lines : list Line) (page_width gutter_ratio : Q) :
  Forall (fun ln => ln_kind ln <> Single)
    (classify_columns lines page_width gutter_ratio)
  /\ (forall k,
        classify_columns (map (fun ln => set_kind ln k) lines)
          page_width gutter_ratio
        = classify_columns lines page_width gutter_ratio)
  /\ classify_columns (classify_columns lines page_width gutter_ratio)
       page_width gutter_ratio
     = classify_columns lines page_width gutter_ratio.
Proof.
  split; [apply classify_columns_kinds|].
  split; [intros k|]; rewrite !classify_columns_map, map_map;
    apply map_ext; intros ln; reflexivity.
Qed.

Lemma buckets_perm_classified lines :
  Permutation (of_kind Full lines ++ of_kind Left lines ++ of_kind Right lines)
    (filter (fun ln => negb (Kind_eqb (ln_kind ln) Single)) lines).
Proof.
  unfold of_kind. induction lines as [|ln lines IH]; [reflexivity|].
  cbn [filter]. destruct (ln_kind ln); cbn [Kind_eqb negb].
  - exact IH.
  - apply perm_skip, IH.
  - cbn [app]. rewrite <- Permutation_middle. apply perm_skip, IH.
  - rewrite app_assoc, <- Permutation_middle, <- app_assoc.
    apply perm_skip, IH.
Qed.

Lemma ordered_lines_perm_classified lines :
  Permutation (ordered_lines lines)
    (filter (fun ln => negb (Kind_eqb (ln_kind ln) Single)) lines).
Proof.
  unfold ordered_lines. rewrite !sorted_perm. apply buckets_perm_classified.
Qed.

(** X9. The sequencer keeps, each exactly once, the lines whose kind is
    Full, Left or Right and drops the lines still marked with the
    placeholder; so it neither loses nor repeats a classified line. *)
Theorem sequencer_keeps_classified_lines :
  (forall lines,
     Permutation (ordered_lines lines)
       (filter (fun ln => negb (Kind_eqb (ln_kind ln) Single)) lines))
  /\ (forall lines page_width gutter_ratio,
        Permutation
          (ordered_lines (classify_columns lines page_width gutter_ratio))
          (classify_columns lines page_width gutter_ratio)).
Proof.
  split; [apply ordered_lines_perm_classified|apply ordered_lines_perm].
Qed.

(** ** Further properties of filtering and merging *)

Lemma filter_fold_general (U : Unicode) drop ordered : forall filtered,
  fold_left (filter_step drop) ordered filtered
  = filtered
    ++ filter (fun t => nonempty t && negb (drop && is_likely_header_footer t))
         (map ln_text ordered).
Proof.
  induction ordered as [|ln ordered IH]; intros filtered; simpl.
  - now rewrite app_nil_r.
  - rewrite IH. unfold filter_step.
    destruct (nonempty (ln_text ln)); simpl; [|reflexivity].
    destruct (drop && is_likely_header_footer (ln_text ln)); simpl;
      [reflexivity|now rewrite <- app_assoc].
Qed.

(** X10. Turning the filter on removes from what the stage passes with the
    filter off exactly the texts the header/footer heuristic flags, and
    keeps the others in their order. *)
Theorem filter_on_refines_filter_off (U : Unicode) (ordered : list Line) :
  filter_lines true ordered
  = filter (fun t => negb (is_likely_header_footer t))
      (filter_lines false ordered).
Proof.
  unfold filter_lines. rewrite !filter_fold_general. cbn [app andb].
  induction (map ln_text ordered) as [|t ts IH]; [reflexivity|].
  cbn [filter]. destruct (nonempty t); cbn [andb negb filter]; [|exact IH].
  destruct (is_likely_header_footer t); cbn [negb]; now rewrite IH.
Qed.

Section MergeBounds.
Context {U : Unicode}.

Lemma merge_step_length out cur :
  (1 <= length (merge_step out cur) <= S (length out))%nat.
Proof.
  destruct out as [|o out'] eqn:E; [simpl; lia|].
  rewrite <- E. assert (Hne : out <> []) by (subst; discriminate).
  clear E. destruct (exists_last Hne) as (init & prev & ->).
  rewrite merge_step_last.
  destruct (merge_hyphenation prev cur) as [[p2 c2] [|]];
    [|destruct (should_join_with_space prev cur)];
    rewrite !length_app; simpl; lia.
Qed.

Lemma merge_fold_length filtered : forall out,
  (length (fold_left merge_step filtered out) <= length out + length filtered)%nat
  /\ (out <> [] \/ filtered <> [] -> fold_left merge_step filtered out <> []).
Proof.
  induction filtered as [|cur filtered IH]; intros out; cbn [fold_left].
  - split; [simpl; lia|]. intros [H|H]; congruence.
  - pose proof (merge_step_length out cur) as L.
    destruct (IH (merge_step out cur)) as [H1 H2]. split; [simpl; lia|].
    intros _. apply H2. left. destruct (merge_step out cur); simpl in *; [lia|discriminate].
Qed.

Lemma filter_lines_length drop ordered :
  (length (filter_lines drop ordered) <= length ordered)%nat.
Proof.
  unfold filter_lines. rewrite filter_fold_general. cbn [app].
  rewrite <- (length_map ln_text ordered). apply filter_length_le.
Qed.

Lemma ordered_lines_length lines :
  (length (ordered_lines lines) <= length lines)%nat.
Proof.
  rewrite (Permutation_length (ordered_lines_perm_classified lines)).
  apply filter_length_le.
Qed.

Lemma concat_length_nonempty A (l : list (list A)) :
  Forall (fun s => s <> []) l -> (length l <= length (concat l))%nat.
Proof.
  induction 1 as [|s l Hs _ IH]; simpl; [lia|].
  rewrite length_app. destruct s; [congruence|simpl; lia].
Qed.

Lemma words_to_lines_length ws y_tol :
  (length (words_to_lines ws y_tol) <= length ws)%nat.
Proof.
  rewrite words_to_lines_segments, length_map.
  rewrite <- (Permutation_length (page_segments_perm ws y_tol)).
  apply concat_length_nonempty, page_segments_nonempty.
Qed.
End MergeBounds.

Lemma merged_length (U : Unicode) (filtered : list str) :
  (length (merge_paragraphs filtered) <= length filtered)%nat.
Proof. apply (merge_fold_length filtered []). Qed.

(** X11. Merging never yields more paragraphs than it was given lines, and
    yields none only when it was given none. *)
Theorem merged_count_bounds (U : Unicode) (filtered : list str) :
  (length (merge_paragraphs filtered) <= length filtered)%nat
  /\ (merge_paragraphs filtered = [] <-> filtered = []).
Proof.
  unfold merge_paragraphs.
  destruct (merge_fold_length filtered []) as [H1 H2]. split; [exact H1|].
  split.
  - intros E. destruct filtered; [reflexivity|].
    exfalso. apply H2; [right; discriminate|assumption].
  - intros ->. reflexivity.
Qed.

(** X12. The line count of a page record never exceeds the number of words
    read from the (cropped) page. *)
Theorem line_count_at_most_words (U : Unicode)
    (crop : Page -> BBox -> option Page) (page p : Page) (r : PageRecord)
    (y_tol : Q) (drop_headers_footers : bool) (crop_top crop_bottom : Q) :
  cropped_page crop page crop_top crop_bottom = Some p ->
  reconstruct_page_text crop page y_tol drop_headers_footers
    crop_top crop_bottom = Some r ->
  (r_line_count r <= length (words p))%nat.
Proof.
  intros Hp Hr. unfold reconstruct_page_text in Hr. rewrite Hp in Hr.
  injection Hr as <-. cbn [r_line_count]. unfold page_paragraphs.
  etransitivity; [apply merged_length|].
  etransitivity; [apply filter_lines_length|].
  etransitivity; [apply ordered_lines_length|].
  rewrite classify_columns_map, length_map. apply words_to_lines_length.
Qed.

Lemma line_count_at_most_words_witness :
  let page :=
    mkPage 1 600 800
      [mkToken (lit "Hello") 10 40 0 10; mkToken (lit "again") 10 40 20 30] in
  (r_line_count (mkRecord 1 600 800 (lit "Hello again") 1)
   <= length (words page))%nat.
Proof.
  intros page.
  apply (@line_count_at_most_words basic_latin strict_crop page page
           (mkRecord 1 600 800 (lit "Hello again") 1) 3 true 0 0);
    reflexivity.
Defined.

(** X13. Every paragraph of a page is a text that is not empty, neither
    starts nor ends with whitespace and has no whitespace other than
    U+0020. *)
Theorem paragraphs_are_tidy (U : Unicode) (p : Page) (y_tol : Q)
    (drop_headers_footers : bool) :
  Forall (tidy U) (page_paragraphs p y_tol drop_headers_footers).
Proof. apply page_paragraphs_tidy. Qed.

Section Essence.
Context {U : Unicode}.

Lemma essence_app a b : essence U (a ++ b) = essence U a ++ essence U b.
Proof. apply filter_app. Qed.

Lemma essence_lstrip s : essence U (lstrip s) = essence U s.
Proof.
  induction s as [|c s IH]; [reflexivity|]. cbn [lstrip].
  destruct (isspace c) eqn:E; [|reflexivity].
  rewrite IH. unfold essence. cbn [filter]. now rewrite E.
Qed.

Lemma essence_rev s : essence U (rev s) = rev (essence U s).
Proof.
  unfold essence. induction s as [|c s IH]; [reflexivity|]. simpl.
  rewrite filter_app, IH. simpl.
  destruct (negb _); [reflexivity|now rewrite app_nil_r].
Qed.

Lemma essence_rstrip s : essence U (rstrip s) = essence U s.
Proof.
  unfold rstrip. now rewrite essence_rev, essence_lstrip, essence_rev,
    rev_involutive.
Qed.

Lemma essence_drop_hyphen prev :
  endswith prev (lit "-") = true ->
  essence U (removelast prev) = essence U prev.
Proof.
  intros H. change (lit "-") with [45%N] in H.
  apply endswith_char in H as [p ->].
  rewrite removelast_last, essence_app. simpl.
  now rewrite orb_true_r, app_nil_r.
Qed.

Lemma essence_merge_step out cur :
  essence U (concat (merge_step out cur))
  = essence U (concat out) ++ essence U cur.
Proof.
  destruct out as [|o out'] eqn:E.
  { simpl. now rewrite app_nil_r. }
  rewrite <- E. assert (Hne : out <> []) by (subst; discriminate).
  clear E. destruct (exists_last Hne) as (init & prev & ->).
  rewrite merge_step_last. unfold merge_hyphenation.
  destruct (endswith prev (lit "-")) eqn:Eh; cbn [andb].
  - destruct (nonempty cur && _).
    + rewrite !concat_snoc, !essence_app.
      now rewrite (essence_drop_hyphen _ Eh), app_assoc.
    + destruct (should_join_with_space prev cur).
      * rewrite !concat_snoc, !essence_app, essence_rstrip, essence_lstrip.
        simpl. rewrite orb_true_r. simpl. now rewrite app_assoc.
      * change [prev; cur] with ([prev] ++ [cur]).
        now rewrite app_assoc, !concat_snoc, !essence_app.
  - destruct (should_join_with_space prev cur).
    + rewrite !concat_snoc, !essence_app, essence_rstrip, essence_lstrip.
      simpl. rewrite orb_true_r. simpl. now rewrite app_assoc.
    + change [prev; cur] with ([prev] ++ [cur]).
      now rewrite app_assoc, !concat_snoc, !essence_app.
Qed.

Lemma essence_merge_fold filtered : forall out,
  essence U (concat (fold_left merge_step filtered out))
  = essence U (concat out) ++ essence U (concat filtered).
Proof.
  induction filtered as [|cur filtered IH]; intros out; cbn [fold_left].
  - simpl. now rewrite app_nil_r.
  - rewrite IH, essence_merge_step. simpl.
    now rewrite essence_app, app_assoc.
Qed.
End Essence.

(** X14. Merging loses and adds no text: but for whitespace, U+0020 and
    hyphens, the characters of the paragraphs, read in order, are those of
    the lines they were merged from. *)
Theorem merging_conserves_text (U : Unicode) (filtered : list str) :
  essence U (concat (merge_paragraphs filtered))
  = essence U (concat filtered).
Proof. unfold merge_paragraphs. now rewrite essence_merge_fold. Qed.

(** ** Further properties of the header/footer heuristic *)

Section HeaderFooter.
Context {U : Unicode}.

Lemma re_fullmatch_iff r s : re_fullmatch r s = true <-> Matches r None s [].
Proof.
  unfold re_fullmatch. rewrite rmatch_correct. unfold accepts. split.
  - intros (w & rest & -> & H & Hk). destruct rest; [|discriminate].
    now rewrite app_nil_r.
  - intros H. exists s, []. now rewrite app_nil_r.
Qed.

Lemma search_from_sound r s : forall p,
  search_from r p s = true ->
  exists pre w rest, s = pre ++ w ++ rest /\ Matches r (last_of p pre) w rest.
Proof.
  induction s as [|c s IH]; intros p H; cbn [search_from] in H;
    apply orb_true_iff in H as [H|H]; try discriminate.
  - apply rmatch_correct in H as (w & rest & E & H & _).
    exists [], w, rest. now split.
  - apply rmatch_correct in H as (w & rest & E & H & _).
    exists [], w, rest. now split.
  - apply IH in H as (pre & w & rest & -> & H).
    exists (c :: pre), w, rest. split; [reflexivity|].
    change (c :: pre) with ([c] ++ pre). now rewrite last_of_app.
Qed.

Lemma startswith_prefix p : forall s,
  startswith s p = true -> exists rest, s = p ++ rest.
Proof.
  induction p as [|a p IH]; intros s H; [now exists s|].
  destruct s as [|b s]; [discriminate|]. simpl in H.
  apply andb_true_iff in H as [E H]. apply N.eqb_eq in E as ->.
  destruct (IH _ H) as [rest ->]. now exists rest.
Qed.

Lemma no_digit_no_number s :
  Forall (fun c => isdecimal c = false) s ->
  re_fullmatch page_number_re s = false
  /\ re_search standalone_number_re s = false.
Proof.
  intros Hs. rewrite Forall_forall in Hs. split.
  - destruct (re_fullmatch page_number_re s) eqn:E; [|reflexivity].
    apply re_fullmatch_iff, Matches_Plus_Chr_inv in E as [Hn Hd].
    destruct s as [|c s]; [congruence|]. inversion Hd; subst.
    assert (isdecimal c = false) by (apply Hs; now left). congruence.
  - destruct (re_search standalone_number_re s) eqn:E; [|reflexivity].
    apply search_from_sound in E as (pre & w & rest & -> & H).
    apply Matches_Seq_inv in H as (w0 & w1 & -> & _ & H).
    apply Matches_Seq_inv in H as (ds & w2 & -> & H & _).
    apply Matches_Plus_Chr_inv in H as [Hn Hd].
    destruct ds as [|c ds]; [congruence|]. inversion Hd; subst.
    assert (isdecimal c = false).
    { apply Hs. apply in_or_app. right. apply in_or_app. left.
      apply in_or_app. right. now left. }
    congruence.
Qed.
End HeaderFooter.

(** X15. A line whose normalised, lower-cased text holds no decimal digit
    is never taken for a header or footer (the digit 2 being a decimal
    digit). *)
Theorem header_footer_needs_digit (U : Unicode) (line : str) :
  isdecimal 50 = true ->
  Forall (fun c => isdecimal c = false) (lower (norm_space line)) ->
  is_likely_header_footer line = false.
Proof.
  intros H2 Hs. unfold is_likely_header_footer.
  destruct (no_digit_no_number Hs) as [-> ->]. rewrite andb_false_r.
  destruct (startswith _ (lit "january 2025")) eqn:E; [|reflexivity].
  exfalso. apply startswith_prefix in E as [rest E].
  rewrite Forall_forall in Hs. specialize (Hs 50%N).
  rewrite E in Hs. rewrite Hs in H2; [discriminate|].
  apply in_or_app. left. vm_compute. tauto.
Qed.

Lemma header_footer_needs_digit_witness :
  is_likely_header_footer (lit "Future of Jobs Report") = false.
Proof.
  apply (@header_footer_needs_digit basic_latin (lit "Future of Jobs Report")).
  - reflexivity.
  - vm_compute. repeat constructor.
Defined.

(** X16. A line whose normalised, lower-cased text is a run of decimal
    digits and nothing else is taken for a page number. *)
Theorem digits_only_is_header_footer (U : Unicode) (line : str) :
  lower (norm_space line) <> [] ->
  Forall (fun c => isdecimal c = true) (lower (norm_space line)) ->
  is_likely_header_footer line = true.
Proof.
  intros Hn Hd. unfold is_likely_header_footer.
  assert (E : re_fullmatch page_number_re (lower (norm_space line)) = true).
  { apply re_fullmatch_iff. now apply Matches_Plus_Chr. }
  now rewrite E.
Qed.

Lemma digits_only_is_header_footer_witness :
  is_likely_header_footer (lit "  2025 ") = true.
Proof.
  apply (@digits_only_is_header_footer basic_latin (lit "  2025 ")).
  - vm_compute. discriminate.
  - vm_compute. repeat constructor.
Defined.

(** ** Further properties of the document loop *)

Section LoopSuccess.
Context {U : Unicode}.
Variable crop : Page -> BBox -> option Page.
Variables (y_tol : Q) (drop : bool) (crop_top crop_bottom : Q).

Lemma page_loop_completes pages : forall written texts,
  Forall (fun pg => cropped_page crop pg crop_top crop_bottom <> None) pages ->
  exists recs,
    Forall2 (fun pg r =>
      reconstruct_page_text crop pg y_tol drop crop_top crop_bottom = Some r)
      pages recs
    /\ page_loop crop pages y_tol drop crop_top crop_bottom written texts
       = (written ++ recs, Some (texts ++ map page_block recs)).
Proof.
  induction pages as [|pg pages IH]; intros written texts H.
  - exists []. split; [constructor|]. simpl. now rewrite !app_nil_r.
  - inversion H as [|? ? Hpg H']; subst.
    destruct (reconstruct_total crop y_tol drop crop_top crop_bottom pg Hpg)
      as [r Hr].
    destruct (IH (written ++ [r]) (texts ++ [page_block r]) H')
      as (recs & HF & HL).
    exists (r :: recs). split; [now constructor|].
    simpl. rewrite Hr, HL. now rewrite <- !app_assoc.
Qed.

Lemma extract_pdf_completes pdf max_pages fs :
  Forall (fun pg => cropped_page crop pg crop_top crop_bottom <> None)
    (pages_read pdf max_pages) ->
  exists recs,
    Forall2 (fun pg r =>
      reconstruct_page_text crop pg y_tol drop crop_top crop_bottom = Some r)
      (pages_read pdf max_pages) recs
    /\ extract_pdf crop pdf max_pages y_tol drop crop_top crop_bottom fs
       = (mkFiles (Some recs) (Some (strip (concat (map page_block recs)))),
          Returned).
Proof.
  intros H. destruct (page_loop_completes [] [] H) as (recs & HF & HL).
  exists recs. split; [assumption|]. unfold extract_pdf. now rewrite HL.
Qed.

Lemma cropped_page_no_crop page :
  (crop_top == 0)%Q -> (crop_bottom == 0)%Q ->
  cropped_page crop page crop_top crop_bottom = Some page.
Proof.
  intros H1 H2. unfold cropped_page, truthy.
  apply Qeq_bool_iff in H1, H2. now rewrite H1, H2.
Qed.

Lemma records_of_uncropped pages recs :
  (crop_top == 0)%Q -> (crop_bottom == 0)%Q ->
  Forall2 (fun pg r =>
    reconstruct_page_text crop pg y_tol drop crop_top crop_bottom = Some r)
    pages recs ->
  map r_page_number recs = map page_number pages
  /\ map r_width recs = map width pages
  /\ map r_height recs = map height pages
  /\ map r_line_count recs
     = map (fun pg => length (page_paragraphs pg y_tol drop)) pages.
Proof.
  intros H1 H2. induction 1 as [|pg r pages recs Hr _ IH]; [repeat split|].
  unfold reconstruct_page_text in Hr.
  rewrite cropped_page_no_crop in Hr by assumption. injection Hr as <-.
  destruct IH as (I1 & I2 & I3 & I4).
  cbn [map r_page_number r_width r_height r_line_count].
  now rewrite I1, I2, I3, I4.
Qed.
End LoopSuccess.

(** X17. When the token source accepts the crop on every page read, the
    extractor returns having written one record per page read, in page
    order, and the text file made of their page blocks, stripped. *)
Theorem extract_writes_every_page (U : Unicode)
    (crop : Page -> BBox -> option Page) (pdf : list Page)
    (max_pages : option Z) (y_tol : Q) (drop_headers_footers : bool)
    (crop_top crop_bottom : Q) (fs : Files) :
  Forall (fun pg => cropped_page crop pg crop_top crop_bottom <> None)
    (pages_read pdf max_pages) ->
  exists recs,
    Forall2 (fun pg r =>
      reconstruct_page_text crop pg y_tol drop_headers_footers
        crop_top crop_bottom = Some r) (pages_read pdf max_pages) recs
    /\ extract_pdf crop pdf max_pages y_tol drop_headers_footers
         crop_top crop_bottom fs
       = (mkFiles (Some recs) (Some (strip (concat (map page_block recs)))),
          Returned).
Proof. apply extract_pdf_completes. Qed.

Lemma extract_writes_every_page_witness :
  exists recs,
    Forall2 (fun pg r =>
      reconstruct_page_text strict_crop pg 3 true 50 0 = Some r)
      (pages_read [mkPage 1 600 800 []; mkPage 2 600 700 []] None) recs
    /\ extract_pdf strict_crop [mkPage 1 600 800 []; mkPage 2 600 700 []]
         None 3 true 50 0 (mkFiles None None)
       = (mkFiles (Some recs) (Some (strip (concat (map page_block recs)))),
          Returned).
Proof.
  apply (@extract_writes_every_page basic_latin strict_crop
           [mkPage 1 600 800 []; mkPage 2 600 700 []] None 3 true 50 0
           (mkFiles None None)).
  repeat constructor; discriminate.
Defined.

(** X18. With both crops zero the token source is never asked to crop: the
    extractor cannot raise in the page loop, whatever the pages and their
    words, and every record carries the number, width and height of its
    page. *)
Theorem no_crop_never_raises (U : Unicode)
    (crop : Page -> BBox -> option Page) (pdf : list Page)
    (max_pages : option Z) (y_tol : Q) (drop_headers_footers : bool)
    (crop_top crop_bottom : Q) (fs : Files) :
  (crop_top == 0)%Q -> (crop_bottom == 0)%Q ->
  exists recs,
    snd (extract_pdf crop pdf max_pages y_tol drop_headers_footers
           crop_top crop_bottom fs) = Returned
    /\ jsonl_file (fst (extract_pdf crop pdf max_pages y_tol
                          drop_headers_footers crop_top crop_bottom fs))
       = Some recs
    /\ map r_page_number recs = map page_number (pages_read pdf max_pages)
    /\ map r_width recs = map width (pages_read pdf max_pages)
    /\ map r_height recs = map height (pages_read pdf max_pages)
    /\ map r_line_count recs
       = map (fun pg =>
                length (page_paragraphs pg y_tol drop_headers_footers))
           (pages_read pdf max_pages).
Proof.
  intros H1 H2.
  destruct (@extract_pdf_completes U crop y_tol drop_headers_footers
              crop_top crop_bottom pdf max_pages fs) as (recs & HF & HE).
  { apply Forall_forall. intros pg _.
    now rewrite cropped_page_no_crop. }
  exists recs. rewrite HE. cbn [fst snd jsonl_file].
  split; [reflexivity|]. split; [reflexivity|].
  exact (@records_of_uncropped U crop y_tol drop_headers_footers crop_top
           crop_bottom _ _ H1 H2 HF).
Qed.

Lemma no_crop_never_raises_witness :
  exists recs,
    snd (extract_pdf (fun _ _ => None)
           [mkPage 1 600 800 []; mkPage 2 600 700 []] None 3 true 0 0
           (mkFiles None None)) = Returned
    /\ jsonl_file (fst (extract_pdf (fun _ _ => None)
                          [mkPage 1 600 800 []; mkPage 2 600 700 []] None 3
                          true 0 0 (mkFiles None None)))
       = Some recs
    /\ map r_page_number recs
       = map page_number
           (pages_read [mkPage 1 600 800 []; mkPage 2 600 700 []] None)
    /\ map r_width recs
       = map width (pages_read [mkPage 1 600 800 []; mkPage 2 600 700 []] None)
    /\ map r_height recs
       = map height
           (pages_read [mkPage 1 600 800 []; mkPage 2 600 700 []] None)
    /\ map r_line_count recs
       = map (fun pg => length (page_paragraphs pg 3 true))
           (pages_read [mkPage 1 600 800 []; mkPage 2 600 700 []] None).
Proof.
  apply (@no_crop_never_raises basic_latin (fun _ _ => None)
           [mkPage 1 600 800 []; mkPage 2 600 700 []] None 3 true 0 0
           (mkFiles None None)); reflexivity.
Defined.

(** X19. The page cap: without a cap, and with a cap of 0, every page is
    read; a positive cap reads that many leading pages (all of them when the
    document has fewer); a negative cap reads none. *)
Theorem page_cap (pdf : list Page) :
  pages_read pdf None = pdf
  /\ pages_read pdf (Some 0%Z) = pdf
  /\ (forall m, (0 < m)%Z ->
        pages_read pdf (Some m) = firstn (Z.to_nat m) pdf)
  /\ (forall m, (m < 0)%Z -> pages_read pdf (Some m) = []).
Proof.
  unfold pages_read, page_limit. rewrite Nat2Z.id, firstn_all.
  split; [reflexivity|]. split.
  { cbn [Z.eqb]. now rewrite Nat2Z.id, firstn_all. }
  split.
  - intros m Hm. destruct (Z.eqb_spec m 0); [lia|].
    destruct (Z.le_ge_cases (Z.of_nat (length pdf)) m) as [L|L].
    + rewrite Z.min_l, Nat2Z.id, firstn_all by assumption.
      symmetry. apply firstn_all2. lia.
    + now rewrite Z.min_r.
  - intros m Hm. destruct (Z.eqb_spec m 0); [lia|].
    rewrite Z.min_r by lia. now destruct m.
Qed.

Lemma page_cap_witness :
  pages_read [mkPage 1 600 800 []; mkPage 2 600 800 []; mkPage 3 600 800 []]
    (Some 2%Z)
  = firstn (Z.to_nat 2)
      [mkPage 1 600 800 []; mkPage 2 600 800 []; mkPage 3 600 800 []].
Proof.
  apply (proj1 (proj2 (proj2 (page_cap
           [mkPage 1 600 800 []; mkPage 2 600 800 []; mkPage 3 600 800 []])))).
  reflexivity.
Defined.

(** ** The order of the input does not matter *)

Section SortedUnique.
Variables (A K : Type) (key : A -> K) (lt : K -> K -> bool).

Hypothesis lt_asym : forall x y, lt x y = true -> lt y x = false.
Hypothesis le_trans : forall x y z,
  lt y x = false -> lt z y = false -> lt z x = false.

Lemma insert_sorted_gen x l :
  StronglySorted (not_after key lt) l ->
  StronglySorted (not_after key lt) (insert key lt x l).
Proof.
  induction l as [|z l IH]; simpl; intros S.
  - repeat constructor.
  - inversion S as [|? ? S' Hz]; subst.
    destruct (lt (key z) (key x)) eqn:E.
    + constructor; [auto|].
      apply (Permutation_Forall (Permutation_sym (insert_perm key lt x l))).
      constructor; [|assumption]. unfold not_after. now apply lt_asym.
    + constructor; [assumption|]. constructor; [exact E|].
      eapply Forall_impl; [|exact Hz]. intros b Hb. unfold not_after in *.
      now apply le_trans with (key z).
Qed.

Lemma sorted_sorted_gen l :
  StronglySorted (not_after key lt) (sorted key lt l).
Proof.
  induction l; simpl; [constructor|now apply insert_sorted_gen].
Qed.

Lemma sorted_fixed l :
  StronglySorted (not_after key lt) l -> sorted key lt l = l.
Proof.
  induction 1 as [|x l S IH Hx]; [reflexivity|].
  cbn [sorted fold_right]. fold (sorted key lt l). rewrite IH.
  destruct l as [|z l]; [reflexivity|]. simpl.
  inversion Hx as [|? ? Hz _]; subst. unfold not_after in Hz. now rewrite Hz.
Qed.

Lemma strongly_sorted_unique l1 : forall l2,
  (forall a b, In a l1 -> In b l1 -> (not_after key lt) a b -> (not_after key lt) b a -> a = b) ->
  Permutation l1 l2 ->
  StronglySorted (not_after key lt) l1 -> StronglySorted (not_after key lt) l2 -> l1 = l2.
Proof.
  induction l1 as [|a t1 IH]; intros l2 Hd P S1 S2.
  - now apply Permutation_nil in P.
  - destruct l2 as [|b t2];
      [apply Permutation_sym, Permutation_nil in P; discriminate|].
    inversion S1 as [|? ? S1' H1]; inversion S2 as [|? ? S2' H2]; subst.
    rewrite Forall_forall in H1, H2.
    assert (Ea : a = b).
    { assert (Hb : In b (a :: t1))
        by (apply (Permutation_in _ (Permutation_sym P)); now left).
      assert (Ha : In a (b :: t2)) by (apply (Permutation_in _ P); now left).
      destruct Hb as [Hb|Hb]; [assumption|].
      destruct Ha as [Ha|Ha]; [now symmetry|].
      apply Hd; [now left|now right|now apply H1|now apply H2]. }
    subst b. f_equal. apply IH; try assumption.
    + intros x y Hx Hy. apply Hd; now right.
    + now apply Permutation_cons_inv in P.
Qed.

(** Sorting does not see the order of its input when no two different
    elements have keys of equal rank. *)
Lemma sorted_of_permutation l1 l2 :
  (forall a b, In a l1 -> In b l1 -> (not_after key lt) a b -> (not_after key lt) b a -> a = b) ->
  Permutation l1 l2 -> sorted key lt l1 = sorted key lt l2.
Proof.
  intros Hd P. apply strongly_sorted_unique; try apply sorted_sorted_gen.
  - intros a b Ha Hb. apply Hd; eapply Permutation_in; try eassumption;
      apply sorted_perm.
  - rewrite !sorted_perm. exact P.
Qed.
End SortedUnique.

Lemma Qltb_asym x y : Qltb x y = true -> Qltb y x = false.
Proof. rewrite Qltb_lt, Qltb_ge. apply Qlt_le_weak. Qed.

Lemma Qltb_le_trans x y z :
  Qltb y x = false -> Qltb z y = false -> Qltb z x = false.
Proof. rewrite !Qltb_ge. apply Qle_trans. Qed.

Lemma pair_ltb_spec a b :
  pair_ltb a b = true
  <-> (fst a < fst b \/ (fst a == fst b /\ snd a < snd b))%Q.
Proof.
  unfold pair_ltb.
  now rewrite orb_true_iff, andb_true_iff, !Qltb_lt, Qeq_bool_iff.
Qed.

Lemma pair_ltb_false a b :
  pair_ltb a b = false
  <-> (fst b < fst a \/ (fst a == fst b /\ snd b <= snd a))%Q.
Proof.
  destruct (pair_ltb a b) eqn:E.
  - apply pair_ltb_spec in E. split; [discriminate|]. intros H. exfalso. lra.
  - split; [intros _|reflexivity].
    assert (N : ~ (fst a < fst b \/ (fst a == fst b /\ snd a < snd b))%Q).
    { rewrite <- pair_ltb_spec. congruence. }
    destruct (Qlt_le_dec (fst b) (fst a)) as [L|L]; [now left|right].
    destruct (Qlt_le_dec (fst a) (fst b)) as [L'|L']; [tauto|].
    assert (Eq : (fst a == fst b)%Q) by lra. split; [assumption|].
    destruct (Qlt_le_dec (snd a) (snd b)); [tauto|assumption].
Qed.

Lemma pair_ltb_asym x y : pair_ltb x y = true -> pair_ltb y x = false.
Proof. rewrite pair_ltb_spec, pair_ltb_false. intros H. lra. Qed.

Lemma pair_ltb_le_trans x y z :
  pair_ltb y x = false -> pair_ltb z y = false -> pair_ltb z x = false.
Proof. rewrite !pair_ltb_false. intros H1 H2. lra. Qed.

(** X20. The lines of a page do not depend on the order in which the words
    arrive, provided no two different words share both top and x0. *)
Theorem word_order_is_irrelevant (U : Unicode) (ws ws' : list Token)
    (y_tol : Q) :
  Permutation ws ws' ->
  (forall a b, In a ws -> In b ws ->
     (w_top a == w_top b)%Q -> (w_x0 a == w_x0 b)%Q -> a = b) ->
  words_to_lines ws y_tol = words_to_lines ws' y_tol.
Proof.
  intros P Hd. rewrite !words_to_lines_segments. unfold page_segments.
  rewrite (@sorted_of_permutation _ _ (fun w => (w_top w, w_x0 w)) pair_ltb
             pair_ltb_asym pair_ltb_le_trans ws ws'); [reflexivity| |exact P].
  intros a b Ha Hb H1 H2. unfold not_after in H1, H2.
  apply pair_ltb_false in H1, H2. cbn [fst snd] in H1, H2.
  apply Hd; try assumption; lra.
Qed.

Lemma word_order_is_irrelevant_witness :
  words_to_lines
    [mkToken (lit "a") 10 40 0 10; mkToken (lit "b") 45 70 0 10] 3
  = words_to_lines
      [mkToken (lit "b") 45 70 0 10; mkToken (lit "a") 10 40 0 10] 3.
Proof.
  apply (@word_order_is_irrelevant basic_latin
           [mkToken (lit "a") 10 40 0 10; mkToken (lit "b") 45 70 0 10]
           [mkToken (lit "b") 45 70 0 10; mkToken (lit "a") 10 40 0 10] 3).
  - apply perm_swap.
  - intros a b [<-|[<-|[]]] [<-|[<-|[]]] H1 H2; try reflexivity;
      vm_compute in H2; discriminate.
Defined.

Lemma filter_all A (p : A -> bool) l :
  Forall (fun x => p x = true) l -> filter p l = l.
Proof.
  induction 1 as [|x l Hx _ IH]; [reflexivity|]. simpl. now rewrite Hx, IH.
Qed.

Lemma filter_none A (p : A -> bool) l :
  Forall (fun x => p x = false) l -> filter p l = [].
Proof.
  induction 1 as [|x l Hx _ IH]; [reflexivity|]. simpl. now rewrite Hx.
Qed.

Lemma of_kind_bucket k k' lines :
  filter (fun ln => Kind_eqb (ln_kind ln) k)
    (sorted ln_y Qltb (of_kind k' lines))
  = if Kind_eqb k' k then sorted ln_y Qltb (of_kind k' lines) else [].
Proof.
  pose proof (sorted_bucket k' lines) as (Hk & _).
  destruct (Kind_eqb k' k) eqn:E.
  - apply filter_all. eapply Forall_impl; [|exact Hk].
    intros ln ->. exact E.
  - apply filter_none. eapply Forall_impl; [|exact Hk].
    intros ln ->. exact E.
Qed.

Lemma key_le_not_after l :
  StronglySorted (key_le ln_y) l -> StronglySorted (not_after ln_y Qltb) l.
Proof.
  induction 1 as [|x l S IH Hx]; constructor; [assumption|].
  eapply Forall_impl; [|exact Hx]. intros b Hb. now apply Qltb_ge.
Qed.

Lemma of_kind_all k l :
  Forall (fun ln => ln_kind ln = k) l -> of_kind k l = l.
Proof.
  intros H. apply filter_all. eapply Forall_impl; [|exact H].
  intros ln ->. now destruct k.
Qed.

Lemma of_kind_other k k' l :
  k' <> k -> Forall (fun ln => ln_kind ln = k') l -> of_kind k l = [].
Proof.
  intros N H. apply filter_none. eapply Forall_impl; [|exact H].
  intros ln ->. destruct k', k; try reflexivity; congruence.
Qed.

Lemma ordered_lines_reading_ordered lines :
  reading_ordered (ordered_lines lines).
Proof.
  exists (sorted ln_y Qltb (of_kind Full lines)),
         (sorted ln_y Qltb (of_kind Left lines)),
         (sorted ln_y Qltb (of_kind Right lines)).
  split; [reflexivity|].
  repeat split; try apply sorted_bucket; apply sorted_sorted.
Qed.

Lemma reading_ordered_fixed lines :
  reading_ordered lines -> ordered_lines lines = lines.
Proof.
  intros (F & L & R & -> & HF & HL & HR & SF & SL & SR).
  assert (E : forall k, of_kind k (F ++ L ++ R)
                        = of_kind k F ++ of_kind k L ++ of_kind k R)
    by (intros k; unfold of_kind; now rewrite !filter_app).
  unfold ordered_lines. rewrite !E.
  rewrite (of_kind_all HF), (of_kind_all HL), (of_kind_all HR).
  rewrite (@of_kind_other Full Left L), (@of_kind_other Full Right R),
          (@of_kind_other Left Full F), (@of_kind_other Left Right R),
          (@of_kind_other Right Full F), (@of_kind_other Right Left L)
    by (assumption || discriminate).
  cbn [app]. rewrite !app_nil_r.
  rewrite (@sorted_fixed _ _ ln_y Qltb F) by now apply key_le_not_after.
  rewrite (@sorted_fixed _ _ ln_y Qltb L) by now apply key_le_not_after.
  now rewrite (@sorted_fixed _ _ ln_y Qltb R) by now apply key_le_not_after.
Qed.

(** X21. Lines that are already in reading order (the Full lines by
    ascending y, then the Left lines, then the Right lines) come out of the
    sequencer unchanged; the output of the sequencer is in reading order, so
    sequencing twice is sequencing once. *)
Theorem sequencing_is_idempotent :
  (forall lines, reading_ordered lines -> ordered_lines lines = lines)
  /\ (forall lines, reading_ordered (ordered_lines lines))
  /\ (forall lines,
        ordered_lines (ordered_lines lines) = ordered_lines lines).
Proof.
  split; [apply reading_ordered_fixed|].
  split; [apply ordered_lines_reading_ordered|].
  intros lines. apply reading_ordered_fixed, ordered_lines_reading_ordered.
Qed.

Lemma sequencing_is_idempotent_witness :
  let lines := [mkLine 5 100 500 (lit "t") Full; mkLine 0 10 200 (lit "a") Left;
                mkLine 9 10 200 (lit "b") Left; mkLine 0 310 500 (lit "c") Right]
  in ordered_lines lines = lines.
Proof.
  intros lines. apply (proj1 sequencing_is_idempotent lines).
  exists [mkLine 5 100 500 (lit "t") Full],
         [mkLine 0 10 200 (lit "a") Left; mkLine 9 10 200 (lit "b") Left],
         [mkLine 0 310 500 (lit "c") Right].
  split; [reflexivity|].
  repeat split; repeat constructor; vm_compute; discriminate.
Defined.

(** X22. A page has at most as many lines as words, and no line only when
    it has no word. *)
Theorem line_total_bounds (U : Unicode) (ws : list Token) (y_tol : Q) :
  (length (words_to_lines ws y_tol) <= length ws)%nat
  /\ (words_to_lines ws y_tol = [] <-> ws = []).
Proof.
  split; [apply words_to_lines_length|]. split.
  - rewrite words_to_lines_segments. intros E.
    apply map_eq_nil in E.
    pose proof (page_segments_perm ws y_tol) as P. rewrite E in P.
    now apply Permutation_nil in P.
  - intros ->. reflexivity.
Qed.

(** ** The text file *)

Section TextFile.
Context {U : Unicode}.

Lemma lstrip_app_solid a b :
  a <> [] -> first_ok U a -> lstrip (a ++ b) = a ++ b.
Proof.
  intros Hn Hf. apply lstrip_id. now apply first_ok_app.
Qed.

Lemma lstrip_blank_app a b : blank a -> lstrip (a ++ b) = lstrip b.
Proof.
  induction 1 as [|c a Hc _ IH]; [reflexivity|]. simpl. now rewrite Hc.
Qed.

Lemma lstrip_app_not_blank a b : ~ blank a -> lstrip (a ++ b) = lstrip a ++ b.
Proof.
  induction a as [|c a IH]; intros Hn; [exfalso; apply Hn; constructor|].
  simpl. destruct (isspace c) eqn:E; [|reflexivity].
  apply IH. intros Hb. apply Hn. now constructor.
Qed.

Lemma rstrip_keeps_solid_prefix a b :
  a <> [] -> last_ok U a -> rstrip (a ++ b) = a ++ rstrip b.
Proof.
  intros Hn Hl. unfold rstrip. rewrite rev_app_distr.
  destruct (exists_last Hn) as (a' & z & ->).
  assert (Hz : isspace z = false) by now apply (Hl a' z).
  assert (NB : ~ blank (rev b ++ [z])).
  { intros Hb. apply Forall_app in Hb as [_ Hb]. inversion Hb; congruence. }
  rewrite rev_app_distr. cbn [rev app].
  change (rev b ++ z :: rev a') with (rev b ++ [z] ++ rev a').
  rewrite app_assoc, (lstrip_app_not_blank _ NB), rev_app_distr, rev_involutive.
  assert (E : lstrip (rev b ++ [z]) = lstrip (rev b) ++ [z]).
  { clear NB. induction (rev b) as [|c r IH]; simpl; [now rewrite Hz|].
    destruct (isspace c); [exact IH|reflexivity]. }
  rewrite E, rev_app_distr. cbn [rev app]. now rewrite <- app_assoc.
Qed.
End TextFile.

(** X23. The text of the text file starts with the marker of the first
    record and keeps that record's marker whole (the newline being
    whitespace and the hyphen not): after it come the rest of the blocks,
    stripped on the right. *)
Theorem text_file_starts_with_marker (U : Unicode)
    (r : PageRecord) (recs : list PageRecord) :
  isspace 10 = true -> isspace 45 = false ->
  strip (concat (map page_block (r :: recs)))
  = lit "--- PAGE " ++ decimal (r_page_number r) ++ lit " ---"
    ++ rstrip (nl ++ nl ++ r_text r ++ concat (map page_block recs)).
Proof.
  intros Hnl Hh. cbn [map concat]. unfold page_block at 1, strip.
  rewrite <- !app_assoc.
  assert (Bnl : blank (nl ++ nl)) by (repeat constructor; assumption).
  rewrite app_assoc, (lstrip_blank_app _ Bnl).
  set (tail := nl ++ nl ++ r_text r ++ concat (map page_block recs)).
  set (head := lit "--- PAGE " ++ decimal (r_page_number r) ++ lit " ---").
  assert (Hhead : head <> [] /\ first_ok U head /\ last_ok U head).
  { unfold head. split; [discriminate|]. split.
    - intros c t E. injection E as <- _. exact Hh.
    - rewrite !app_assoc. intros t c E.
      change (lit " ---") with ([32%N; 45%N; 45%N] ++ [45%N]) in E.
      rewrite app_assoc in E. apply app_inj_tail in E as [_ <-]. exact Hh. }
  destruct Hhead as (H1 & H2 & H3).
  change (lit "--- PAGE " ++ decimal (r_page_number r) ++ lit " ---"
          ++ nl ++ nl ++ r_text r ++ concat (map page_block recs))
    with (lit "--- PAGE " ++ decimal (r_page_number r) ++ lit " ---" ++ tail).
  replace (lit "--- PAGE " ++ decimal (r_page_number r) ++ lit " ---" ++ tail)
    with (head ++ tail) by (unfold head; now rewrite <- !app_assoc).
  rewrite (lstrip_app_solid tail H1 H2), (rstrip_keeps_solid_prefix tail H1 H3).
  unfold head. now rewrite <- !app_assoc.
Qed.

Lemma text_file_starts_with_marker_witness :
  strip (concat (map page_block [mkRecord 7 600 800 (lit "Hello") 1]))
  = lit "--- PAGE " ++ decimal 7 ++ lit " ---"
    ++ rstrip (nl ++ nl ++ lit "Hello" ++ concat (map page_block [])).
Proof.
  apply (@text_file_starts_with_marker basic_latin
           (mkRecord 7 600 800 (lit "Hello") 1) []); reflexivity.
Defined.
